(** * librime: the user dictionary manager (src/lever/user_dict_manager.cc)

    A shallow embedding of [UserDictManager]: the snapshot merge of
    [Restore], the text [Import], [Backup], [Synchronize],
    [SynchronizeAll], [GetUserDictList] and [UpgradeUserDict], over an
    explicit model of the stores and of the file system they live in.
    Where the engine or the file system can refuse a call (a store that
    does not open or close, a write that returns false, a directory that
    cannot be created, a metadata write that throws) the environment says
    so, and the manager takes the branch the code takes.

    The store engine ([UserDb<TreeDb>]), the record codec
    ([UserDbValue::Pack] / [Unpack]) and the decay formula
    ([algo::formula_d]) are collaborators of this file and are taken as
    interfaces: type classes whose laws are stated where a proof needs
    them. *)

From Stdlib Require Import ZArith NArith Lia Ascii String.
From stdpp Require Import base option list gmap strings sorting.

Local Open Scope string_scope.

(** ** Characters and strings, as [std::string] has them *)

Definition tab : ascii := "009"%char.
Definition space : ascii := " "%char.

(** [s.find(c)]: the position of the first [c]; [None] stands for
    [std::string::npos]. *)
Fixpoint string_find (c : ascii) (s : string) : option nat :=
  match s with
  | EmptyString => None
  | String a s' => if Ascii.eqb a c then Some 0 else S <$> string_find c s'
  end.

(** [s.insert(pos, 1, c)].  Past the end the C++ call throws
    [std::out_of_range]; the merge only calls it at a position [find]
    returned, so the model leaves the string as it is there. *)
Fixpoint string_insert (pos : nat) (c : ascii) (s : string) : string :=
  match pos, s with
  | 0, _ => String c s
  | S p, String a s' => String a (string_insert p c s')
  | S _, EmptyString => EmptyString
  end.

(** ** Records and their weights *)

(** [TickCount] is [uint64_t]; the manager only compares ticks and takes
    their maximum, so [N] carries them without wrap-around. *)
Definition TickCount := N.

(** The weight ("dee") is a [double].  The manager compares weights with
    [<], takes [std::max], and hands them to [algo::formula_d]; that is
    the whole interface it uses. *)
Class Weight := {
  dee_t : Type;
  dee_zero : dee_t;                               (* the literal 0 *)
  dee_ltb : dee_t → dee_t → bool;                 (* operator< *)
  dee_of_tick : TickCount → dee_t;                (* the cast (double)tick *)
  formula_d : dee_t → dee_t → dee_t → dee_t → dee_t;  (* algo::formula_d(d, t, da, ta) *)
}.

(** An ordering without NaN and with one zero: [<] is a strict total
    order. *)
Class WeightOrder (W : Weight) : Prop := {
  dee_ltb_irrefl : ∀ a, dee_ltb a a = false;
  dee_ltb_trans : ∀ a b c, dee_ltb a b = true → dee_ltb b c = true → dee_ltb a c = true;
  dee_ltb_total : ∀ a b, dee_ltb a b = false → dee_ltb b a = false → a = b;
}.

(** [std::max(a, b)] is [(a < b) ? b : a]. *)
Definition dee_max `{Weight} (a b : dee_t) : dee_t :=
  if dee_ltb a b then b else a.

Record UserDbValue `{Weight} := {
  commits : Z;          (* int *)
  dee : dee_t;          (* double *)
  tick : TickCount;
}.

(** [UserDbValue()]: every field zero. *)
Definition UserDbValue_default `{Weight} : UserDbValue :=
  {| commits := 0%Z; dee := dee_zero; tick := 0%N |}.

(** The packed form of a value, as the store holds it.  [Unpack] is total:
    the constructor [UserDbValue(str)] and [v.Unpack(str)] on a fresh value
    both leave defaults where the text does not parse. *)
Class Codec `{Weight} := {
  packed : Type;
  Pack : UserDbValue → packed;
  Unpack : packed → UserDbValue;
}.

Class CodecRoundTrip `{W : Weight} (C : Codec) : Prop :=
  Unpack_Pack : ∀ v : UserDbValue, Unpack (Pack v) = v.

Section Model.
Context `{C : Codec}.

(** ** One store: [UserDb<TreeDb>] *)

(** Modelled from the spec: [UserDb<TreeDb>] (rime/dict/user_db.h,
    tree_db.h) is not among the sources.  Section 3 has a dictionary own a
    set of records by key, one logical clock, one owning identity and its
    name; section 6 has the engine answer [is_user_dictionary],
    [dictionary_name], [owner_identity] and [logical_clock]. *)
Record UserDb := {
  meta_is_user_db : bool;
  meta_db_name : string;
  meta_user_id : string;
  meta_tick : TickCount;
  records : gmap string packed;
}.

Definition IsUserDb (db : UserDb) : bool := meta_is_user_db db.
Definition GetDbName (db : UserDb) : string := meta_db_name db.
Definition GetUserId (db : UserDb) : string := meta_user_id db.
Definition GetTickCount (db : UserDb) : TickCount := meta_tick db.

Definition set_records (r : gmap string packed) (db : UserDb) : UserDb :=
  {| meta_is_user_db := meta_is_user_db db; meta_db_name := meta_db_name db;
     meta_user_id := meta_user_id db; meta_tick := meta_tick db; records := r |}.

(** Modelled from the spec: [db.Fetch(key, &value)], section 6
    [fetch(key) -> value?]. *)
Definition Fetch (db : UserDb) (key : string) : option packed := records db !! key.

(** Modelled from the spec: [db.Update(key, value)], section 6
    [update(key, value) -> bool].  [fails] says for which keys the engine
    refuses the write: the call then returns false and leaves the store as
    it was; otherwise the write goes through and the call returns true. *)
Definition Update (fails : string → bool) (db : UserDb) (key : string) (value : packed) :
    bool * UserDb :=
  if fails key then (false, db)
  else (true, set_records (<[key := value]> (records db)) db).

(** The two metadata entries [Restore] writes. *)
Inductive MetaEntry :=
  | MetaTick (t : TickCount)       (* "/tick" *)
  | MetaUserId (id : string).      (* "/user_id" *)

Definition meta_path (m : MetaEntry) : string :=
  match m with MetaTick _ => "/tick" | MetaUserId _ => "/user_id" end.

Definition meta_write (db : UserDb) (m : MetaEntry) : UserDb :=
  match m with
  | MetaTick t =>
      {| meta_is_user_db := meta_is_user_db db; meta_db_name := meta_db_name db;
         meta_user_id := meta_user_id db; meta_tick := t; records := records db |}
  | MetaUserId id =>
      {| meta_is_user_db := meta_is_user_db db; meta_db_name := meta_db_name db;
         meta_user_id := id; meta_tick := meta_tick db; records := records db |}
  end.

(** Modelled from the spec: [db.MetaUpdate(path, value)], section 6
    [set_metadata(path, value)].  [None] is a thrown exception, which the
    [try] of [Restore] provides for; [throws] says which writes throw. *)
Definition MetaUpdate (throws : string → bool) (db : UserDb) (m : MetaEntry) : option UserDb :=
  if throws (meta_path m) then None else Some (meta_write db m).

(** Modelled from the spec: the cursor of section 6, [open_cursor(prefix)]
    with [jump(key)] and [next()], over an ordered store.  [Query("")]
    walks every record in ascending key order (bytes compared unsigned),
    [Jump(k)] moves to the first key not below [k], and [GetNextRecord]
    yields what remains one by one. *)
Definition key_le (a b : string * packed) : Prop := String.leb a.1 b.1 = true.

#[local] Instance key_le_dec a b : Decision (key_le a b).
Proof. unfold key_le. apply _. Defined.

Definition Query (db : UserDb) : list (string * packed) :=
  merge_sort key_le (map_to_list (records db)).

Fixpoint Jump (k : string) (a : list (string * packed)) : list (string * packed) :=
  match a with
  | [] => []
  | kv :: a' => if String.ltb kv.1 k then Jump k a' else a
  end.

(** ** The merge of [Restore] (lines 104-140) *)

(** Lines 112-117: a key without a tab, or with the tab first, is not an
    entry ([None]: the loop continues); a key lacking the space before
    its tab gets one. *)
Definition sanitize_key (key : string) : option string :=
  match string_find tab key with
  | None => None
  | Some 0 => None
  | Some (S p) =>
      if decide (String.get p key = Some space) then Some key
      else Some (string_insert (S p) space key)
  end.

(** [if (v.tick < baseline) v.dee = formula_d(0, (double)baseline, v.dee, (double)v.tick)] *)
Definition rescale (baseline : TickCount) (v : UserDbValue) : UserDbValue :=
  if (tick v <? baseline)%N
  then {| commits := commits v;
          dee := formula_d dee_zero (dee_of_tick baseline) (dee v) (dee_of_tick (tick v));
          tick := tick v |}
  else v.

(** Lines 125-126 *)
Definition resolve (v u : UserDbValue) : UserDbValue :=
  {| commits := Z.max (commits v) (commits u);
     dee := dee_max (dee v) (dee u);
     tick := tick v |}.

Definition stamp (t : TickCount) (v : UserDbValue) : UserDbValue :=
  {| commits := commits v; dee := dee v; tick := t |}.

(** The value written for a record of the snapshot ([right] in the
    source), given what the destination holds under the same key ([left],
    when [Fetch] finds it): lines 118-128. *)
Definition merged_value (tick_left tick_right tick_max : TickCount)
    (right_ : packed) (left_ : option packed) : UserDbValue :=
  let v := rescale tick_right (Unpack right_) in
  let v := match left_ with
           | Some l => resolve v (rescale tick_left (Unpack l))
           | None => v
           end in
  stamp tick_max v.

(** One turn of the loop (lines 111-131); [fails] is how [dest.Update]
    answers. *)
Definition merge_record (fails : string → bool) (tick_left tick_right tick_max : TickCount)
    (st : UserDb * nat) (rec : string * packed) : UserDb * nat :=
  let '(dest, num_entries) := st in
  match sanitize_key rec.1 with
  | None => (dest, num_entries)
  | Some key =>
      let v := merged_value tick_left tick_right tick_max rec.2 (Fetch dest key) in
      let '(ok, dest) := Update fails dest key (Pack v) in
      (dest, if ok then S num_entries else num_entries)
  end.

(** Lines 133-139: the two writes inside [try], and [catch (...)] that
    only logs.  A write that went through before the throw stays. *)
Definition update_metadata (throws : string → bool) (user_id : string)
    (tick_max : TickCount) (dest : UserDb) : UserDb :=
  match MetaUpdate throws dest (MetaTick tick_max) with
  | None => dest
  | Some dest1 =>
      match MetaUpdate throws dest1 (MetaUserId user_id) with
      | None => dest1
      | Some dest2 => dest2
      end
  end.

(** Lines 104-140, from the two clocks to the metadata update: the
    destination after the merge and [num_entries]. *)
Definition Restore_merge (fails throws : string → bool) (user_id : string)
    (temp dest : UserDb) : UserDb * nat :=
  let tick_left := GetTickCount dest in
  let tick_right := GetTickCount temp in
  let tick_max := N.max tick_left tick_right in
  let a := Jump " " (Query temp) in
  let '(dest, num_entries) :=
    fold_left (merge_record fails tick_left tick_right tick_max) a (dest, 0) in
  let dest := if decide (0 < num_entries)
              then update_metadata throws user_id tick_max dest else dest in
  (dest, num_entries).

End Model.

(** ** Text import: the helpers of Boost it calls *)

(** [boost::algorithm::split(out, s, pred, compress)]: cut [s] at every
    character [pred] accepts; with [token_compress_on] a run of such
    characters counts as one cut.  An empty input yields one empty token. *)
Definition starts_with_sep (is_sep : ascii → bool) (s : string) : bool :=
  match s with
  | EmptyString => false
  | String c _ => is_sep c
  end.

Fixpoint boost_split (is_sep : ascii → bool) (compress : bool) (s : string) : list string :=
  match s with
  | EmptyString => [EmptyString]
  | String c s' =>
      if is_sep c
      then if compress && starts_with_sep is_sep s'
           then boost_split is_sep compress s'
           else EmptyString :: boost_split is_sep compress s'
      else match boost_split is_sep compress s' with
           | t :: ts => String c t :: ts
           | [] => [String c EmptyString]
           end
  end.

(** [std::isspace] in the classic locale: space and the codes 9 to 13. *)
Definition is_space (c : ascii) : bool :=
  let n := nat_of_ascii c in
  (n =? 32)%nat || ((9 <=? n)%nat && (n <=? 13)%nat).

Fixpoint trim_left (s : string) : string :=
  match s with
  | EmptyString => EmptyString
  | String c s' => if is_space c then trim_left s' else s
  end.

Fixpoint trim_right (s : string) : string :=
  match s with
  | EmptyString => EmptyString
  | String c s' =>
      match trim_right s' with
      | EmptyString => if is_space c then EmptyString else String c EmptyString
      | t => String c t
      end
  end.

(** [boost::algorithm::trim(s)] *)
Definition boost_trim (s : string) : string := trim_left (trim_right s).

(** [boost::lexical_cast<int>(s)]: an optional sign, then decimal digits
    and nothing else, within the range of [int]; [None] is
    [bad_lexical_cast]. *)
Definition digit_of (c : ascii) : option Z :=
  let n := nat_of_ascii c in
  if (48 <=? n)%nat && (n <=? 57)%nat then Some (Z.of_nat (n - 48)) else None.

Fixpoint parse_digits (acc : Z) (s : string) : option Z :=
  match s with
  | EmptyString => Some acc
  | String c s' =>
      match digit_of c with
      | Some d => parse_digits (10 * acc + d) s'
      | None => None
      end
  end.

Definition INT_MIN : Z := - 2 ^ 31.
Definition INT_MAX : Z := 2 ^ 31 - 1.

Definition lexical_cast_int (s : string) : option Z :=
  let '(negative, body) :=
    match s with
    | String "-" s' => (true, s')
    | String "+" s' => (false, s')
    | _ => (false, s)
    end in
  match body with
  | EmptyString => None
  | _ =>
      match parse_digits 0 body with
      | Some n =>
          let r := (if negative then - n else n)%Z in
          if (INT_MIN <=? r)%Z && (r <=? INT_MAX)%Z then Some r else None
      | None => None
      end
  end.

Section ImportLine.
Context `{C : Codec}.

(** ** One line of [Import] (lines 186-224) *)

Definition set_commits (c : Z) (v : UserDbValue) : UserDbValue :=
  {| commits := c; dee := dee v; tick := tick v |}.

(** Lines 188-206: the key a line stands for and its usage count;
    [None] where the loop continues without touching the store. *)
Definition import_parse (line : string) : option (string * Z) :=
  match line with
  | EmptyString => None
  | String "#" _ => None
  | _ =>
      match boost_split (Ascii.eqb tab) false line with
      | row0 :: row1 :: rest =>
          if decide (row0 = EmptyString ∨ row1 = EmptyString) then None else
          let row1 := boost_trim row1 in
          let row1 :=
            if decide (row1 = EmptyString) then row1
            else String.concat " " (boost_split (Ascii.eqb space) true row1) in
          let key := row1 +:+ String space (String tab row0) in
          let commits :=
            match rest with
            | row2 :: _ =>
                if decide (row2 = EmptyString) then 0%Z
                else default 0%Z (lexical_cast_int row2)
            | [] => 0%Z
            end in
          Some (key, commits)
      | _ => None
      end
  end.

(** Lines 215-221: the value to store for [key], from the imported count
    and what the store holds. *)
Definition imported_value (db : UserDb) (key : string) (commits_ : Z) : UserDbValue :=
  let v := match Fetch db key with
           | Some value => Unpack value
           | None => UserDbValue_default
           end in
  if (0 <? commits_)%Z then set_commits (Z.max commits_ (commits v)) v
  else if (commits_ <? 0)%Z then set_commits commits_ v
  else v.

Definition import_line (fails : string → bool) (st : UserDb * nat) (line : string) :
    UserDb * nat :=
  let '(db, num_entries) := st in
  match import_parse line with
  | None => (db, num_entries)
  | Some (key, commits_) =>
      let v := imported_value db key commits_ in
      let '(ok, db) := Update fails db key (Pack v) in
      (db, if ok then S num_entries else num_entries)
  end.

End ImportLine.

(** ** Paths *)

(** [dir / name] of [boost::filesystem::path]. *)
Definition path_join (dir name : string) : string := dir +:+ "/" +:+ name.

(** The text before the last ["/"] and the text after it; a path with no
    ["/"] has an empty first part. *)
Fixpoint path_split (p : string) : string * string :=
  match p with
  | EmptyString => (EmptyString, EmptyString)
  | String c p' =>
      let '(parent, name) := path_split p' in
      match string_find "/" p' with
      | Some _ => (String c parent, name)
      | None => if Ascii.eqb c "/" then (EmptyString, p') else (EmptyString, String c name)
      end
  end.

(** [path::filename()] *)
Definition path_filename (p : string) : string := (path_split p).2.

(** [path::parent_path()]; the parent of an entry of the root is the
    root. *)
Definition path_parent (p : string) : string :=
  match p, (path_split p).1 with
  | String "/" _, EmptyString => "/"
  | _, parent => parent
  end.

Definition string_rev (s : string) : string :=
  string_of_list_ascii (rev (list_ascii_of_string s)).

(** [boost::ends_with(s, suffix)] *)
Definition ends_with (s suffix : string) : bool :=
  String.prefix (string_rev suffix) (string_rev s).

Fixpoint erase_first (s pat : string) : string :=
  match s with
  | EmptyString => EmptyString
  | String c s' =>
      if String.prefix pat s
      then String.substring (String.length pat) (String.length s - String.length pat) s
      else String c (erase_first s' pat)
  end.

(** [boost::erase_last(s, pat)]: [s] without the last occurrence of [pat]. *)
Definition erase_last (s pat : string) : string :=
  string_rev (erase_first (string_rev s) (string_rev pat)).

Section Manager.
Context `{C : Codec}.

(** ** The installation and its environment *)

(** What [deployer_] tells the manager ([Deployer] is declared in
    rime/deployer.h, not among the sources: its fields are taken as given),
    the constants the store engine declares, and how the engine and the
    file system answer the calls that can fail.  None of it changes while
    the manager runs. *)
Record Env := {
  user_id : string;                      (* deployer_->user_id *)
  user_data_dir : string;                (* deployer_->user_data_dir, path_ *)
  sync_dir : string;                     (* deployer_->sync_dir *)
  user_data_sync_dir : string;           (* deployer_->user_data_sync_dir() *)
  extension : string;                    (* UserDb<TreeDb>::extension *)
  fresh_db : string → UserDb;            (* the store Open() creates when there is none *)
  open_fails : string → bool;            (* Open() of this store returns false *)
  open_read_only_fails : string → bool;  (* OpenReadOnly() returns false *)
  close_fails : string → bool;           (* Close() of this store returns false *)
  update_fails : string → string → bool; (* Update(key, _) on this store returns false *)
  create_metadata_fails : string → bool; (* CreateMetadata() returns false *)
  create_directories_fails : string → bool; (* create_directories(path) fails *)
  backup_fails : string → bool;          (* db.Backup(path) returns false *)
  meta_update_throws : string → bool;    (* MetaUpdate(path, _) throws *)
}.

(** A call of [Restore] or [Backup], as the history below records it. *)
Inductive Call :=
  | CallRestore (snapshot_file : string)
  | CallBackup (dict_name : string).

(** The stores of the user data directory by name, the directories that
    exist with the paths a [directory_iterator] yields for each, the
    snapshot files ([None]: a file no store can be restored from), the text
    files by line, and the history of [Restore] and [Backup] calls (kept to
    state which operations were attempted; no code reads it). *)
Record State := {
  dbs : gmap string UserDb;
  dirs : gmap string (list string);
  snapshot_files : gmap string (option UserDb);
  text_files : gmap string (list string);
  calls : list Call;
}.

Definition set_dbs (d : gmap string UserDb) (s : State) : State :=
  {| dbs := d; dirs := dirs s; snapshot_files := snapshot_files s;
     text_files := text_files s; calls := calls s |}.

Definition set_dirs (d : gmap string (list string)) (s : State) : State :=
  {| dbs := dbs s; dirs := d; snapshot_files := snapshot_files s;
     text_files := text_files s; calls := calls s |}.

Definition set_snapshot_files (f : gmap string (option UserDb)) (s : State) : State :=
  {| dbs := dbs s; dirs := dirs s; snapshot_files := f;
     text_files := text_files s; calls := calls s |}.

Definition log_call (c : Call) (s : State) : State :=
  {| dbs := dbs s; dirs := dirs s; snapshot_files := snapshot_files s;
     text_files := text_files s; calls := (calls s ++ [c])%list |}.

(** [fs::exists], [fs::is_directory] *)
Definition fs_is_directory (s : State) (p : string) : bool :=
  bool_decide (is_Some (dirs s !! p)).

Definition fs_exists (s : State) (p : string) : bool :=
  fs_is_directory s p || bool_decide (is_Some (snapshot_files s !! p)).

(** [fs::create_directories(p, ec)], as [Synchronize] and
    [UpgradeUserDict] call it: false when the directory cannot be created;
    otherwise the new directory is empty and shows up in the listing of its
    parent. *)
Definition fs_create_directories (env : Env) (p : string) (s : State) : bool * State :=
  if create_directories_fails env p then (false, s)
  else (true, set_dirs (<[p := []]> (alter (λ l, (l ++ [p])%list) (path_parent p) (dirs s))) s).

(** The same call without an [error_code], as [Backup] makes it: where the
    overload above reports a failure by returning false, this one throws
    [filesystem_error] ([None]). *)
Definition fs_create_directories_or_throw (env : Env) (p : string) (s : State) :
    option State :=
  let '(ok, s) := fs_create_directories env p s in
  if ok then Some s else None.

(** How a call of the manager ends: it returns a [bool], or an exception
    leaves it. *)
Inductive Outcome :=
  | Returns (b : bool)
  | Throws.

(** [fs::directory_iterator it(p)]: the paths of the entries of [p];
    [None] where the constructor throws because [p] is no directory. *)
Definition fs_directory_iterator (s : State) (p : string) : option (list string) :=
  dirs s !! p.

(** ** Opening stores *)

Definition temp_name : string := ".temp".

(** Modelled from the spec: [db.Open()], section 6 [open(name)]; section
    3 has a dictionary created on first write, so the store under this
    name is created when it is not there. *)
Definition Open (env : Env) (s : State) (name : string) : option UserDb :=
  if open_fails env name then None
  else Some (default (fresh_db env name) (dbs s !! name)).

(** Modelled from the spec: [db.OpenReadOnly()], section 6
    [open_read_only(name)]: only a store that is there opens. *)
Definition OpenReadOnly (env : Env) (s : State) (name : string) : option UserDb :=
  if open_read_only_fails env name then None else dbs s !! name.

(** Modelled from the spec: [UserDb::CreateMetadata] is not among the
    sources; section 4.5 has it regenerate the ownership metadata, claiming
    the store for the local identity without altering record data. *)
Definition CreateMetadata (env : Env) (name : string) (db : UserDb) : option UserDb :=
  if create_metadata_fails env name then None
  else Some {| meta_is_user_db := true; meta_db_name := name;
               meta_user_id := user_id env; meta_tick := meta_tick db;
               records := records db |}.

(** ** [UserDictManager::Restore] (lines 76-144) *)

(** The temporary store [".temp"] lives inside one call: an old one is
    removed first, the new one is filled from the snapshot file, and both
    scope exits close and remove it on every path out.  The model keeps
    its content as the local value [temp]; the map of stores never shows
    it.  While it is open its name cannot be opened a second time, so a
    snapshot that names [".temp"] as its dictionary fails at
    [dest.Open()]. *)
Definition Restore (env : Env) (snapshot_file : string) (s : State) : bool * State :=
  let s := log_call (CallRestore snapshot_file) s in
  let s := set_dbs (delete temp_name (dbs s)) s in
  if open_fails env temp_name then (false, s) else
  match snapshot_files s !! snapshot_file with
  | Some (Some temp) =>
      if negb (IsUserDb temp) then (false, s) else
      let db_name := GetDbName temp in
      if decide (db_name = EmptyString) then (false, s) else
      match (if decide (db_name = temp_name) then None else Open env s db_name) with
      | None => (false, s)
      | Some dest =>
          let '(dest, _) :=
            Restore_merge (update_fails env db_name) (meta_update_throws env) (user_id env)
                          temp dest in
          (true, set_dbs (<[db_name := dest]> (dbs s)) s)
      end
  | _ => (false, s)
  end.

(** ** [UserDictManager::Backup] (lines 53-74) *)

Definition snapshot_name (env : Env) (dict_name : string) : string :=
  dict_name +:+ extension env +:+ ".snapshot".

(** Line 59 closes the store, opens it for writing and recreates its
    metadata, and gives up at the first of the three that returns false.
    Line 66 calls [create_directories] without an [error_code]: a directory
    that cannot be created makes the call throw, and the exception leaves
    [Backup]; a call that returns has created the directory, so that the
    [return false] of line 68 is never reached from the state line 65
    found. *)
Definition Backup (env : Env) (dict_name : string) (s : State) : Outcome * State :=
  let s := log_call (CallBackup dict_name) s in
  match OpenReadOnly env s dict_name with
  | None => (Returns false, s)
  | Some db =>
      let reopened :=
        if decide (GetUserId db = user_id env) then Some db
        else if close_fails env dict_name then None
        else if open_fails env dict_name then None
        else CreateMetadata env dict_name db in
      match reopened with
      | None => (Returns false, s)
      | Some db =>
          let s := set_dbs (<[dict_name := db]> (dbs s)) s in
          let dir := user_data_sync_dir env in
          match (if fs_exists s dir then Some s
                 else fs_create_directories_or_throw env dir s) with
          | None => (Throws, s)
          | Some s =>
              let file := path_join dir (snapshot_name env dict_name) in
              if backup_fails env file then (Returns false, s)
              else (Returns true,
                    set_snapshot_files (<[file := Some db]> (snapshot_files s)) s)
          end
      end
  end.

(** ** [UserDictManager::Synchronize] (lines 256-288) *)

(** One turn of the loop over the entries of the sync directory. *)
Definition sync_peer (env : Env) (snapshot_file : string)
    (st : bool * State) (path : string) : bool * State :=
  let '(success, s) := st in
  if negb (fs_is_directory s path) then (success, s) else
  let file_path := path_join path snapshot_file in
  if fs_exists s file_path then
    let '(ok, s) := Restore env file_path s in
    (if ok then success else false, s)
  else (success, s).

Definition Synchronize (env : Env) (dict_name : string) (s : State) : Outcome * State :=
  let success := true in
  let '(ok, s) := if fs_exists s (sync_dir env) then (true, s)
                  else fs_create_directories env (sync_dir env) s in
  if negb ok then (Returns false, s) else
  match fs_directory_iterator s (sync_dir env) with
  | None => (Throws, s)
  | Some entries =>
      let '(success, s) :=
        fold_left (sync_peer env (snapshot_name env dict_name)) entries (success, s) in
      match Backup env dict_name s with
      | (Returns ok, s) => (Returns (if ok then success else false), s)
      | (Throws, s) => (Throws, s)
      end
  end.

(** ** [UserDictManager::GetUserDictList] (lines 35-51) *)

(** The file names in the user data directory: one per store, and the
    other entries the directory has. *)
Definition user_data_file_names (env : Env) (s : State) : list string :=
  (((λ name, name +:+ extension env) <$> (map_to_list (dbs s)).*1)
   ++ (path_filename <$> default [] (dirs s !! user_data_dir env)))%list.

Definition GetUserDictList (env : Env) (s : State) : list string :=
  if fs_is_directory s (user_data_dir env) then
    omap (λ name, if ends_with name (extension env)
                  then Some (erase_last name (extension env)) else None)
         (user_data_file_names env s)
  else [].

(** ** [UserDictManager::SynchronizeAll] (lines 290-299) *)

Fixpoint synchronize_each (env : Env) (user_dicts : list string) (s : State) : Outcome * State :=
  match user_dicts with
  | [] => (Returns true, s)
  | dict_name :: rest =>
      match Synchronize env dict_name s with
      | (Returns true, s) => synchronize_each env rest s
      | (Returns false, s) => (Returns false, s)
      | (Throws, s) => (Throws, s)
      end
  end.

Definition SynchronizeAll (env : Env) (s : State) : Outcome * State :=
  synchronize_each env (GetUserDictList env s) s.

(** ** [UserDictManager::Import] (lines 172-227) *)

Definition Import (env : Env) (dict_name text_file : string) (s : State) : Z * State :=
  match Open env s dict_name with
  | None => (-1, s)%Z
  | Some db =>
      if negb (IsUserDb db) then ((-1)%Z, set_dbs (<[dict_name := db]> (dbs s)) s) else
      let lines := default [] (text_files s !! text_file) in
      let '(db, num_entries) :=
        fold_left (import_line (update_fails env dict_name)) lines (db, 0) in
      (Z.of_nat num_entries, set_dbs (<[dict_name := db]> (dbs s)) s)
  end.

End Manager.


(** ** [UserDictManager::UpgradeUserDict] (lines 229-254) *)

Section Upgrade.
Context `{C : Codec}.

(** What the upgrade asks of its collaborators beyond [Env]:
    [db.GetRimeVersion()], [CompareVersionString] and [db.name()] come from
    the headers this file includes (rime/dict/user_db.h,
    rime/algo/utilities.h), which are not among the sources; they are taken
    as given, as is how [Remove] answers. *)
Record UpgradeEnv := {
  GetRimeVersion : UserDb → string;            (* db.GetRimeVersion() *)
  CompareVersionString : string → string → Z;  (* negative, zero or positive *)
  db_name : string → string;                   (* db.name() of UserDb<TreeDb>(dict_name) *)
  remove_fails : string → bool;                (* db.Remove() returns false *)
}.

(** [db.Backup(file)] writes the store it has open to the file,
    [db.Remove()] deletes the store; the last step is the [Restore] of this
    file, and [&&] stops at the first call that returns false. *)
Definition UpgradeUserDict (env : Env) (uenv : UpgradeEnv) (dict_name : string)
    (s : State) : bool * State :=
  match OpenReadOnly env s dict_name with
  | None => (false, s)
  | Some db =>
      if negb (IsUserDb db) then (false, s) else
      let db_creator_version := GetRimeVersion uenv db in
      if (CompareVersionString uenv db_creator_version "0.9.7" <? 0)%Z then
        let trash := path_join (user_data_dir env) "trash" in
        let '(ok, s) := if fs_exists s trash then (true, s)
                        else fs_create_directories env trash s in
        if negb ok then (false, s) else
        let snapshot_file := path_join trash (db_name uenv dict_name +:+ ".snapshot") in
        if backup_fails env snapshot_file then (false, s) else
        let s := set_snapshot_files (<[snapshot_file := Some db]> (snapshot_files s)) s in
        if close_fails env dict_name then (false, s) else
        if remove_fails uenv dict_name then (false, s) else
        let s := set_dbs (delete dict_name (dbs s)) s in
        Restore env snapshot_file s
      else (true, s)
  end.

End Upgrade.

(** * The vocabulary of the properties *)

Section Vocabulary.
Context `{C : Codec}.

(** [a <= b] on weights: [b < a] does not hold. *)
Definition dee_le (a b : dee_t) : Prop := dee_ltb b a = false.

(** ** The merge loop, key by key *)

(** The key a record of the scan is written under: its sanitized key,
    when it has one and [dest.Update] does not return false for it; [None]
    for a record that leaves the destination as it is. *)
Definition written_key (fails : string → bool) (rec : string * packed) : option string :=
  match sanitize_key rec.1 with
  | Some key => if fails key then None else Some key
  | None => None
  end.

(** What one turn of the loop does to the records of the destination. *)
Definition merge_records (fails : string → bool) (tl tr tm : TickCount)
    (m : gmap string packed) (rec : string * packed) : gmap string packed :=
  match written_key fails rec with
  | None => m
  | Some key => <[key := Pack (merged_value tl tr tm rec.2 (m !! key))]> m
  end.

(** The records of a scan that are written: what [num_entries] counts. *)
Definition entry_count (fails : string → bool) (a : list (string * packed)) : nat :=
  length (omap (written_key fails) a).

(** A key the scan writes to. *)
Definition merged_key (fails : string → bool) (a : list (string * packed))
    (key : string) : Prop :=
  ∃ rec, rec ∈ a ∧ written_key fails rec = Some key.

(** The destination holds, under the key [rec] is written under, a value
    stamped [tm]. *)
Definition stamped (fails : string → bool) (tm : TickCount) (m : gmap string packed)
    (rec : string * packed) : Prop :=
  ∀ key, written_key fails rec = Some key →
    ∃ v, m !! key = Some (Pack v) ∧ tick v = tm.

(** The destination has taken a record of the snapshot in: it holds, under
    the key the record is written under, a value stamped [tm] whose count
    and weight are at least the record's (the weight as rescaled to the
    snapshot's clock [tr]). *)
Definition absorbed (fails : string → bool) (tr tm : TickCount) (m : gmap string packed)
    (rec : string * packed) : Prop :=
  ∀ key, written_key fails rec = Some key →
    ∃ x, m !! key = Some (Pack x) ∧ tick x = tm ∧
         (commits (Unpack rec.2) ≤ commits x)%Z ∧
         dee_le (dee (rescale tr (Unpack rec.2))) (dee x).

(** The records of a scan that are written under [key], in scan order. *)
Definition contributions (fails : string → bool) (a : list (string * packed))
    (key : string) : list packed :=
  omap (λ rec : string * packed,
          if decide (written_key fails rec = Some key) then Some rec.2 else None) a.

(** The weights a snapshot brings to a key, each rescaled to the clock of
    the snapshot. *)
Definition weights_for (fails : string → bool) (temp : UserDb) (key : string) : list dee_t :=
  (λ p, dee (rescale (GetTickCount temp) (Unpack p)))
    <$> contributions fails (Jump " " (Query temp)) key.

(** The value of a key as a reader of the store decodes it. *)
Definition value_at (db : UserDb) (key : string) : option UserDbValue :=
  Unpack <$> records db !! key.

Definition commits_at (db : UserDb) (key : string) : option Z :=
  commits <$> value_at db key.

Definition dee_at (db : UserDb) (key : string) : option dee_t :=
  dee <$> value_at db key.

Definition tick_at (db : UserDb) (key : string) : option TickCount :=
  tick <$> value_at db key.

(** What a record under a key does to the count and to the weight held
    there. *)
Definition join_commits (o : option Z) (c : Z) : option Z :=
  Some (match o with Some u => Z.max c u | None => c end).

Definition join_dee (o : option dee_t) (d : dee_t) : option dee_t :=
  Some (match o with Some u => dee_max d u | None => d end).

(** One record of the scan, on the decoded value its key holds. *)
Definition merge_value (tl tr tm : TickCount)
    (o : option UserDbValue) (p : packed) : option UserDbValue :=
  Some (merged_value tl tr tm p (Pack <$> o)).

(** The value, if any, is stamped at or after [t]: the merge does not
    rescale it against a clock [t]. *)
Definition fresh (t : TickCount) (o : option UserDbValue) : Prop :=
  ∀ u, o = Some u → (t ≤ tick u)%N.

(** ** The checks of [Restore] *)

(** [temp.Open()] and [temp.Restore(snapshot_file)]: the snapshot as the
    temporary store holds it, or [None] when it cannot be brought in. *)
Definition import_to_temp (env : Env) (s : State) (snapshot_file : string) : option UserDb :=
  if open_fails env temp_name then None
  else match snapshot_files s !! snapshot_file with
       | Some (Some temp) => Some temp
       | _ => None
       end.

(** [dest.Open()] as [Restore] calls it, the temporary store being open. *)
Definition Open_dest (env : Env) (s : State) (db_name : string) : option UserDb :=
  if decide (db_name = temp_name) then None else Open env s db_name.

(** The state [Restore] starts its work from: the call is on record and
    an old temporary store is gone. *)
Definition Restore_entry (snapshot_file : string) (s : State) : State :=
  set_dbs (delete temp_name (dbs s)) (log_call (CallRestore snapshot_file) s).

(** ** The runs of [Synchronize] and [SynchronizeAll] *)

(** [Restore] on each file in turn, whatever the earlier ones returned:
    the results in order, and the state after the last. *)
Fixpoint run_restores (env : Env) (files : list string) (s : State) : list bool * State :=
  match files with
  | [] => ([], s)
  | file :: files =>
      let '(ok, s) := Restore env file s in
      let '(oks, s) := run_restores env files s in
      (ok :: oks, s)
  end.

(** The snapshot files of [dict_name] that the peers hold: for each entry
    of the sync directory that is a directory, the snapshot file in it, if
    there is one. *)
Definition peer_snapshots (env : Env) (dict_name : string) (s : State)
    (entries : list string) : list string :=
  omap (λ path,
          let file_path := path_join path (snapshot_name env dict_name) in
          if fs_is_directory s path && fs_exists s file_path
          then Some file_path else None) entries.

(** The sync directory as [Synchronize] finds or makes it: the state with
    the directory in place, or [None] when it is missing and cannot be
    created. *)
Definition sync_root (env : Env) (s : State) : option State :=
  if fs_exists s (sync_dir env) then Some s
  else if create_directories_fails env (sync_dir env) then None
  else Some (fs_create_directories env (sync_dir env) s).2.

(** Each dictionary of the list is synchronized in turn and each
    [Synchronize] returns true, taking the state from [s] to [s']. *)
Inductive syncs_in_turn (env : Env) : list string → State → State → Prop :=
  | syncs_nil s : syncs_in_turn env [] s s
  | syncs_cons dict_name rest s s1 s2 :
      Synchronize env dict_name s = (Returns true, s1) →
      syncs_in_turn env rest s1 s2 →
      syncs_in_turn env (dict_name :: rest) s s2.

(** What [Synchronize] returns once its merges have returned [oks] and
    its [Backup] has ended as [backup]. *)
Definition sync_outcome (oks : list bool) (backup : Outcome) : Outcome :=
  match backup with
  | Returns ok => Returns (forallb id oks && ok)
  | Throws => Throws
  end.

(** ** Six sentences of the specification, as they are written *)

(** Section 8, commutativity: merging [A] then [B] leaves every key that
    one of them or both have with the same count, weight and stamp as
    merging [B] then [A]. *)
Definition order_independent (fails throws : string → bool) (uid : string)
    (A B dest : UserDb) : Prop :=
  let dAB := (Restore_merge fails throws uid B (Restore_merge fails throws uid A dest).1).1 in
  let dBA := (Restore_merge fails throws uid A (Restore_merge fails throws uid B dest).1).1 in
  ∀ key, merged_key fails (Jump " " (Query A)) key ∨ merged_key fails (Jump " " (Query B)) key →
         value_at dAB key = value_at dBA key.


(** Section 8, clock monotonicity: after a [Restore] that returned true
    the clock of the destination is at least the larger of the two clocks,
    and every record of the destination is stamped with it. *)
Definition clock_monotone (env : Env) (snapshot_file : string) (s : State) : Prop :=
  ∀ s' temp dest dest',
    Restore env snapshot_file s = (true, s') →
    import_to_temp env s snapshot_file = Some temp →
    Open_dest env s (GetDbName temp) = Some dest →
    dbs s' !! GetDbName temp = Some dest' →
    (N.max (GetTickCount dest) (GetTickCount temp) ≤ GetTickCount dest')%N ∧
    ∀ key v, value_at dest' key = Some v → tick v = GetTickCount dest'.

(** Section 4.6, the invariant of import: a count that is zero or negative
    replaces the stored one, a positive count is combined with it by
    [max]. *)
Definition import_replaces_or_maxes (fails : string → bool) (db : UserDb)
    (line : string) : Prop :=
  ∀ key c stored,
    import_parse line = Some (key, c) →
    Fetch db key = Some stored →
    let db' := (import_line fails (db, 0) line).1 in
    ((c ≤ 0)%Z → commits_at db' key = Some c) ∧
    ((0 < c)%Z → commits_at db' key = Some (Z.max c (commits (Unpack stored)))).

(** Section 4.4, step 4: the clock and the owner of the destination are
    updated exactly when at least one entry was merged. *)
Definition metadata_follows_count (fails throws : string → bool) (uid : string)
    (temp dest : UserDb) : Prop :=
  let r := Restore_merge fails throws uid temp dest in
  (0 < r.2 → GetTickCount r.1 = N.max (GetTickCount dest) (GetTickCount temp) ∧
             GetUserId r.1 = uid) ∧
  (r.2 = 0 → GetTickCount r.1 = GetTickCount dest ∧ GetUserId r.1 = GetUserId dest).

(** Section 4.5, synchronize: whatever failed before, the call ends with a
    [Backup], after the [Restore] of some list of peer snapshots, and
    returns true exactly when all of these returned true. *)
Definition always_backs_up (env : Env) (dict_name : string) (s : State) : Prop :=
  ∃ files,
    let merges := run_restores env files s in
    let backup := Backup env dict_name merges.2 in
    (Synchronize env dict_name s).2 = backup.2 ∧
    ((Synchronize env dict_name s).1 = Returns true ↔
       forallb id merges.1 = true ∧ backup.1 = Returns true).

End Vocabulary.

(** * A sample installation *)

(** Weights as integers, with a decay that halves a weight for every tick
    gone by; values stored as they are. *)
#[export] Instance ZWeight : Weight :=
  {| dee_t := Z; dee_zero := 0%Z; dee_ltb := Z.ltb; dee_of_tick := Z.of_N;
     formula_d := λ d t da ta, (d + da / 2 ^ (t - ta))%Z |}.

#[export] Instance ZCodec : Codec :=
  {| packed := UserDbValue; Pack := λ v, v; Unpack := λ p, p |}.

Definition mk_value (c : Z) (d : Z) (t : N) : UserDbValue :=
  {| commits := c; dee := d; tick := t |}.

(** The key of an entry: its code, a space, a tab, its text. *)
Definition entry_key (code text : string) : string :=
  code +:+ String space (String tab text).

Definition mk_db (name owner : string) (t : N) (r : list (string * UserDbValue)) : UserDb :=
  {| meta_is_user_db := true; meta_db_name := name; meta_user_id := owner;
     meta_tick := t; records := list_to_map r |}.

Definition sample_env (cannot_create : bool) (throws : string → bool) : Env :=
  {| user_id := "local"; user_data_dir := "/data"; sync_dir := "/sync";
     user_data_sync_dir := "/sync/local"; extension := ".userdb.kct";
     fresh_db := λ name, mk_db name "local" 0 [];
     open_fails := λ _, false; open_read_only_fails := λ _, false;
     close_fails := λ _, false; update_fails := λ _ _, false;
     create_metadata_fails := λ _, false;
     create_directories_fails := λ _, cannot_create;
     backup_fails := λ _, false;
     meta_update_throws := throws |}.

Definition nothing_throws : string → bool := λ _, false.
Definition never_fails : string → bool := λ _, false.
Definition tick_throws : string → bool := λ path, String.eqb path "/tick".

(** The local dictionary "luna": clock 5, one entry last written at 3. *)
Definition luna : UserDb :=
  mk_db "luna" "other" 5 [(entry_key "a" "x", mk_value 2 10 3)].

(** Snapshots of "luna" from peers.  [luna_empty] has clock 7 and no
    record; [luna_peer] has clock 7, the entry of [luna] with a larger
    count, and an entry of the old key form (no space before the tab);
    [luna_A] and [luna_B] have one entry each, at clocks 6 and 7. *)
Definition luna_empty : UserDb := mk_db "luna" "peer" 7 [].

Definition luna_peer : UserDb :=
  mk_db "luna" "peer" 7
    [(entry_key "a" "x", mk_value 5 2 7); (String "b" (String tab "y"), mk_value 1 1 7)].

Definition luna_A : UserDb := mk_db "luna" "peerA" 6 [(entry_key "c" "z", mk_value 1 1 6)].
Definition luna_B : UserDb := mk_db "luna" "peerB" 7 [(entry_key "d" "w", mk_value 1 1 7)].
Definition luna_B' : UserDb := mk_db "luna" "peerB" 7 [(entry_key "c" "z", mk_value 4 3 7)].


Definition luna_snapshot (peer : string) : string :=
  path_join (path_join "/sync" peer) "luna.userdb.kct.snapshot".

(** A state with "luna" in the user data directory and, under the sync
    directory, the peers [peers] with the snapshots [files]. *)
Definition sample_state (peers : list string)
    (files : list (string * option UserDb)) : State :=
  {| dbs := {[ "luna" := luna ]};
     dirs := list_to_map (("/data", []) :: ("/sync", path_join "/sync" <$> peers)
                          :: ((λ peer, (path_join "/sync" peer, [])) <$> peers));
     snapshot_files := list_to_map files;
     text_files := ∅;
     calls := [] |}.

(** The snapshot file of the peer "peer", and the state in which it holds
    [snapshot]. *)
Definition peer_file : string := luna_snapshot "peer".

Definition state_with (snapshot : UserDb) : State :=
  sample_state ["peer"] [(peer_file, Some snapshot)].

(** The line [text TAB code TAB count] of a text file. *)
Definition text_line (text code count : string) : string :=
  text +:+ String tab (code +:+ String tab count).

(** A state with "luna" and no sync directory at all. *)
Definition bare_state : State :=
  {| dbs := {[ "luna" := luna ]}; dirs := {[ "/data" := [] ]};
     snapshot_files := ∅; text_files := ∅; calls := [] |}.

(** * The vocabulary of the further properties *)

(** A key in the form the store expects: its first tab is not its first
    character and has a space right before it. *)
Definition well_formed_key (key : string) : Prop :=
  ∃ p, string_find tab key = Some (S p) ∧ String.get p key = Some space.


Section FurtherVocabulary.
Context `{C : Codec}.

(** A record of the snapshot that the scan of the merge reaches: the store
    holds it and its key is not below [" "]. *)
Definition scanned (temp : UserDb) (rec : string * packed) : Prop :=
  records temp !! rec.1 = Some rec.2 ∧ String.ltb rec.1 " " = false.

(** The records of the snapshot that are entries: reached by the scan, with
    a tab in the key that is not its first character. *)
Definition snapshot_entries (temp : UserDb) : list (string * packed) :=
  filter (λ rec, is_Some (sanitize_key rec.1) ∧ String.ltb rec.1 " " = false)
         (map_to_list (records temp)).

(** Those of them that the destination takes: [dest.Update] does not
    return false for their sanitized key. *)
Definition written_entries (fails : string → bool) (temp : UserDb) :
    list (string * packed) :=
  filter (λ rec, is_Some (written_key fails rec) ∧ String.ltb rec.1 " " = false)
         (map_to_list (records temp)).

(** ** [Import], key by key *)

(** What a line with count [c] makes of a count [x]: lines 218-221. *)
Definition adjust_count (c x : Z) : Z :=
  if (0 <? c)%Z then Z.max c x else if (c <? 0)%Z then c else x.

(** The value a line with count [c] writes over what its key holds. *)
Definition import_value (o : option packed) (c : Z) : UserDbValue :=
  let v := match o with Some value => Unpack value | None => UserDbValue_default end in
  set_commits (adjust_count c (commits v)) v.

(** The entry of a line that is written: the line stands for an entry and
    [db.Update] does not return false for its key. *)
Definition import_written (fails : string → bool) (line : string) : option (string * Z) :=
  match import_parse line with
  | Some (key, c) => if fails key then None else Some (key, c)
  | None => None
  end.

(** What one line does to the records of the store. *)
Definition import_records (fails : string → bool) (m : gmap string packed)
    (line : string) : gmap string packed :=
  match import_written fails line with
  | None => m
  | Some (key, c) => <[key := Pack (import_value (m !! key) c)]> m
  end.

(** The counts that the written lines of a file give to [key], in
    order. *)
Definition line_counts (fails : string → bool) (lines : list string) (key : string) :
    list Z :=
  omap (λ line, match import_written fails line with
                | Some (k, c) => if decide (k = key) then Some c else None
                | None => None
                end) lines.

(** ** [Backup] *)

(** The store as [Backup] exports it: opened read-only and, when it has
    another owner, closed, opened for writing and claimed for the local
    identity; [None] when one of these steps returns false. *)
Definition backup_source (env : Env) (s : State) (dict_name : string) : option UserDb :=
  match OpenReadOnly env s dict_name with
  | None => None
  | Some db =>
      if decide (GetUserId db = user_id env) then Some db
      else if close_fails env dict_name then None
      else if open_fails env dict_name then None
      else CreateMetadata env dict_name db
  end.

(** The sync directory of this installation as [Backup] needs it: there
    already, or possible to create. *)
Definition backup_dir_available (env : Env) (s : State) : Prop :=
  fs_exists s (user_data_sync_dir env) = true ∨
  create_directories_fails env (user_data_sync_dir env) = false.

(** The snapshot file [Backup] writes for a dictionary. *)
Definition own_snapshot (env : Env) (dict_name : string) : string :=
  path_join (user_data_sync_dir env) (snapshot_name env dict_name).

(** ** [Synchronize], end to end *)


(** No key of the store is one the sanitizer would rewrite: every key
    that has a tab past its first character has a space right before it. *)
Definition keys_sanitized (db : UserDb) : Prop :=
  ∀ k key, is_Some (records db !! k) → sanitize_key k = Some key → key = k.

(** The snapshot file holds a store owned by the local identity. *)
Definition published (env : Env) (s : State) (file : string) : Prop :=
  ∃ db, snapshot_files s !! file = Some (Some db) ∧ GetUserId db = user_id env.

(** ** [UpgradeUserDict] *)

(** The snapshot file the upgrade moves a dictionary through. *)
Definition upgrade_snapshot (env : Env) (uenv : UpgradeEnv) (dict_name : string) : string :=
  path_join (path_join (user_data_dir env) "trash") (db_name uenv dict_name +:+ ".snapshot").

(** The store written before librime 0.9.7, as the upgrade tells it. *)
Definition needs_upgrade (uenv : UpgradeEnv) (db : UserDb) : Prop :=
  (CompareVersionString uenv (GetRimeVersion uenv db) "0.9.7" < 0)%Z.

(** The trash directory as the upgrade finds or makes it, or [None] when it
    is missing and cannot be created. *)
Definition upgrade_trash (env : Env) (s : State) : option State :=
  let trash := path_join (user_data_dir env) "trash" in
  if fs_exists s trash then Some s
  else if create_directories_fails env trash then None
  else Some (fs_create_directories env trash s).2.

End FurtherVocabulary.


(** ** The sample installation, continued *)

(** The collaborators of the upgrade on the sample: every store counts as
    written by 0.9.6, version strings compare as strings, and the file of a
    store is its name with the extension. *)
Definition sample_upgrade_env : UpgradeEnv :=
  {| GetRimeVersion := λ _, "0.9.6";
     CompareVersionString := λ a b,
       if String.eqb a b then 0%Z else if String.ltb a b then (-1)%Z else 1%Z;
     db_name := λ dict_name, dict_name +:+ ".userdb.kct";
     remove_fails := λ _, false |}.

(** "luna" as a defective writer left it: one entry, with no space before
    the tab of its key. *)
Definition luna_old : UserDb :=
  mk_db "luna" "local" 5 [(String "b" (String tab "y"), mk_value 1 1 3)].

Definition old_state : State :=
  {| dbs := {[ "luna" := luna_old ]}; dirs := {[ "/data" := [] ]};
     snapshot_files := ∅; text_files := ∅; calls := [] |}.

(** The sample installation with "luna" locked: it opens read-only and not
    for writing. *)
Definition locked_env : Env :=
  {| user_id := "local"; user_data_dir := "/data"; sync_dir := "/sync";
     user_data_sync_dir := "/sync/local"; extension := ".userdb.kct";
     fresh_db := λ name, mk_db name "local" 0 [];
     open_fails := λ name, String.eqb name "luna";
     open_read_only_fails := λ _, false;
     close_fails := λ _, false; update_fails := λ _ _, false;
     create_metadata_fails := λ _, false;
     create_directories_fails := λ _, false;
     backup_fails := λ _, false;
     meta_update_throws := nothing_throws |}.

(** A state with "luna" and a text file of three entries and a comment. *)
Definition import_file : string := "/data/luna.txt".

Definition import_state : State :=
  {| dbs := {[ "luna" := luna ]}; dirs := {[ "/data" := [] ]};
     snapshot_files := ∅;
     text_files := {[ import_file := [text_line "x" "a" "5"; "# comment";
                                      text_line "y" "b  c" "-1"; text_line "x" "a" "0"] ]};
     calls := [] |}.

(** A store that refuses every write under a key that begins with "b",
    and the sample installation with such stores. *)
Definition refuses_b : string → bool := String.prefix "b".

Definition refusing_env : Env :=
  {| user_id := "local"; user_data_dir := "/data"; sync_dir := "/sync";
     user_data_sync_dir := "/sync/local"; extension := ".userdb.kct";
     fresh_db := λ name, mk_db name "local" 0 [];
     open_fails := λ _, false; open_read_only_fails := λ _, false;
     close_fails := λ _, false; update_fails := λ _, refuses_b;
     create_metadata_fails := λ _, false;
     create_directories_fails := λ _, false;
     backup_fails := λ _, false;
     meta_update_throws := nothing_throws |}.

(** The sample installation with stores that do not close. *)
Definition unclosing_env : Env :=
  {| user_id := "local"; user_data_dir := "/data"; sync_dir := "/sync";
     user_data_sync_dir := "/sync/local"; extension := ".userdb.kct";
     fresh_db := λ name, mk_db name "local" 0 [];
     open_fails := λ _, false; open_read_only_fails := λ _, false;
     close_fails := λ _, true; update_fails := λ _ _, false;
     create_metadata_fails := λ _, false;
     create_directories_fails := λ _, false;
     backup_fails := λ _, false;
     meta_update_throws := nothing_throws |}.

(** ** Weights with a value that compares with nothing *)

(** Weights as integers and one more value, [None], for which [<] is
    false on either side, as it is for a NaN; the decay keeps it. *)
Definition NanWeight : Weight :=
  {| dee_t := option Z; dee_zero := Some 0%Z;
     dee_ltb := λ a b, match a, b with
                       | Some x, Some y => (x <? y)%Z
                       | _, _ => false
                       end;
     dee_of_tick := λ t, Some (Z.of_N t);
     formula_d := λ d t da ta,
       match d, t, da, ta with
       | Some d, Some t, Some da, Some ta => Some (d + da / 2 ^ (t - ta))%Z
       | _, _, _, _ => None
       end |}.

Definition NanCodec : @Codec NanWeight :=
  {| packed := @UserDbValue NanWeight; Pack := λ v, v; Unpack := λ p, p |}.

(** A store at clock 7 with the entry "c z", count 1, stamped 7, at the
    weight [d]; and an empty store at clock 7. *)
Definition nan_db (owner : string) (d : option Z) : @UserDb NanWeight NanCodec :=
  @Build_UserDb NanWeight NanCodec true "luna" owner 7%N
    {[ entry_key "c" "z" := @Build_UserDbValue NanWeight 1%Z d 7%N ]}.

Definition nan_dest : @UserDb NanWeight NanCodec :=
  @Build_UserDb NanWeight NanCodec true "luna" "local" 7%N ∅.

(** * Properties *)

(** ** The order on weights *)

Section WeightFacts.
Context `{WO : WeightOrder}.

Lemma dee_ltb_asym a b : dee_ltb a b = true → dee_ltb b a = false.
Proof.
  intros Hab. destruct (dee_ltb b a) eqn:Hba; [|done].
  by rewrite <- (dee_ltb_irrefl a), (dee_ltb_trans a b a Hab Hba).
Qed.

Lemma dee_le_refl a : dee_le a a.
Proof. apply dee_ltb_irrefl. Qed.

Lemma dee_le_trans a b c : dee_le a b → dee_le b c → dee_le a c.
Proof.
  unfold dee_le. intros Hba Hcb.
  destruct (dee_ltb c a) eqn:Hca; [|done].
  destruct (dee_ltb a b) eqn:Hab.
  - by rewrite (dee_ltb_trans c a b Hca Hab) in Hcb.
  - rewrite (dee_ltb_total a b Hab Hba) in Hca. by rewrite Hca in Hcb.
Qed.

Lemma dee_le_antisym a b : dee_le a b → dee_le b a → a = b.
Proof. unfold dee_le. intros Hba Hab. by apply dee_ltb_total. Qed.

Lemma dee_le_max_l a b : dee_le a (dee_max a b).
Proof.
  unfold dee_le, dee_max. destruct (dee_ltb a b) eqn:Hab.
  - by apply dee_ltb_asym.
  - apply dee_ltb_irrefl.
Qed.

Lemma dee_le_max_r a b : dee_le b (dee_max a b).
Proof.
  unfold dee_le, dee_max. destruct (dee_ltb a b) eqn:Hab; [|done].
  apply dee_ltb_irrefl.
Qed.


Lemma dee_max_lub a b c : dee_le a c → dee_le b c → dee_le (dee_max a b) c.
Proof. unfold dee_max. by destruct (dee_ltb a b). Qed.

Lemma dee_max_comm a b : dee_max a b = dee_max b a.
Proof.
  apply dee_le_antisym; apply dee_max_lub; auto using dee_le_max_l, dee_le_max_r.
Qed.

Lemma dee_max_assoc a b c : dee_max a (dee_max b c) = dee_max (dee_max a b) c.
Proof.
  apply dee_le_antisym; repeat apply dee_max_lub;
    eauto using dee_le_max_l, dee_le_max_r, dee_le_trans.
Qed.

End WeightFacts.

(** ** Keys *)

Lemma string_app_nil (t : string) : EmptyString +:+ t = t.
Proof. reflexivity. Qed.

Lemma string_app_cons (y : ascii) (a t : string) : String y a +:+ t = String y (a +:+ t).
Proof. reflexivity. Qed.

Ltac string_cons := rewrite ?string_app_nil, ?string_app_cons; simpl.

Lemma string_find_cons_None c y a :
  string_find c (String y a) = None → Ascii.eqb y c = false ∧ string_find c a = None.
Proof.
  simpl. destruct (Ascii.eqb y c); [done|]. by destruct (string_find c a).
Qed.

Lemma string_find_app c a b :
  string_find c a = None → string_find c (a +:+ String c b) = Some (String.length a).
Proof.
  induction a as [|y a IH]; string_cons.
  - by rewrite Ascii.eqb_refl.
  - intros [-> Ha]%string_find_cons_None. by rewrite IH.
Qed.

Lemma string_app_snoc a x b :
  a +:+ String x b = (a +:+ String x EmptyString) +:+ b.
Proof. induction a as [|y a IH]; string_cons; [done|]. by f_equal. Qed.

Lemma string_length_snoc a x :
  String.length (a +:+ String x EmptyString) = S (String.length a).
Proof. induction a as [|y a IH]; string_cons; [done|]. by f_equal. Qed.

Lemma string_length_app a b :
  String.length (a +:+ b) = (String.length a + String.length b)%nat.
Proof. induction a as [|y a IH]; string_cons; [done|]. by rewrite IH. Qed.

Lemma string_find_snoc c a x :
  string_find c a = None → x ≠ c → string_find c (a +:+ String x EmptyString) = None.
Proof.
  intros Ha Hx. induction a as [|y a IH]; string_cons.
  - by apply Ascii.eqb_neq in Hx as ->.
  - apply string_find_cons_None in Ha as [-> Ha]. by rewrite IH.
Qed.

Lemma string_find_app_skip c a x b :
  string_find c a = None → x ≠ c →
  string_find c (a +:+ String x (String c b)) = Some (S (String.length a)).
Proof.
  intros Ha Hx. rewrite string_app_snoc.
  rewrite string_find_app by by apply string_find_snoc.
  by rewrite string_length_snoc.
Qed.

Lemma string_get_app_length a x b :
  String.get (String.length a) (a +:+ String x b) = Some x.
Proof. induction a as [|y a IH]; string_cons; [done|]. exact IH. Qed.





(** ** Keys the sanitizer leaves *)

Lemma string_find_lt c s (n : nat) :
  string_find c s = Some n → (n < String.length s)%nat.
Proof.
  revert n. induction s as [|a s IH]; intros n; simpl; [done|].
  destruct (Ascii.eqb a c); [intros [= <-]; lia|].
  destruct (string_find c s) as [m|]; [|done]. simpl. intros [= <-].
  specialize (IH m eq_refl). lia.
Qed.

Lemma string_find_insert c x s (pos n : nat) :
  string_find c s = Some n → x ≠ c → (pos ≤ n)%nat →
  string_find c (string_insert pos x s) = Some (S n).
Proof.
  intros Hfind Hx. apply Ascii.eqb_neq in Hx.
  revert pos n Hfind. induction s as [|a s IH]; intros pos n; simpl; [done|].
  destruct pos as [|pos]; simpl.
  - intros Hfind _. rewrite Hx. simpl in *.
    destruct (Ascii.eqb a c); [by simplify_eq|].
    destruct (string_find c s); by simplify_eq/=.
  - destruct (Ascii.eqb a c); [intros [= <-]; lia|].
    destruct (string_find c s) as [m|] eqn:Hs; [|done]. simpl.
    intros [= <-] Hle. rewrite (IH pos m) by (done || lia). done.
Qed.

Lemma string_get_insert x s (pos : nat) :
  (pos ≤ String.length s)%nat → String.get pos (string_insert pos x s) = Some x.
Proof.
  revert pos. induction s as [|a s IH]; intros [|pos]; simpl; try done; try lia.
  intros Hle. apply IH. lia.
Qed.

Lemma string_insert_length x s (pos : nat) :
  (pos ≤ String.length s)%nat →
  String.length (string_insert pos x s) = S (String.length s).
Proof.
  revert pos. induction s as [|a s IH]; intros [|pos]; simpl; try done; try lia.
  intros Hle. rewrite IH; [done|lia].
Qed.

Lemma sanitize_key_well_formed key : well_formed_key key ↔ sanitize_key key = Some key.
Proof.
  unfold well_formed_key, sanitize_key. split.
  - intros (p & -> & Hget). by rewrite decide_True.
  - destruct (string_find tab key) as [[|p]|] eqn:Hfind; [done| |done].
    case_decide as Hget; [by eauto|].
    intros [= Heq]. apply (f_equal String.length) in Heq.
    apply string_find_lt in Hfind.
    pose proof (string_insert_length space key (S p)) as Hlen.
    simpl in Hlen. rewrite Hlen in Heq; lia.
Qed.

Lemma sanitize_key_result key key' : sanitize_key key = Some key' → well_formed_key key'.
Proof.
  unfold sanitize_key. intros Hkey.
  destruct (string_find tab key) as [[|p]|] eqn:Hfind; [done| |done].
  case_decide as Hget; simplify_eq.
  - by exists p.
  - exists (S p). split.
    + by apply string_find_insert.
    + apply string_get_insert. apply string_find_lt in Hfind. lia.
Qed.

(** ** The scan of the snapshot *)

Lemma ascii_compare_lt_trans x y z :
  Ascii.compare x y = Lt → Ascii.compare y z = Lt → Ascii.compare x z = Lt.
Proof.
  unfold Ascii.compare. rewrite !N.compare_lt_iff. lia.
Qed.

Lemma string_leb_trans a b c :
  String.leb a b = true → String.leb b c = true → String.leb a c = true.
Proof.
  unfold String.leb. revert b c.
  induction a as [|x a IH]; intros [|y b] [|z c]; simpl; try done.
  destruct (Ascii.compare x y) eqn:Hxy; [| |done].
  - apply Ascii.compare_eq_iff in Hxy as ->.
    destruct (Ascii.compare y z) eqn:Hyz; [|done..]. apply IH.
  - intros _. destruct (Ascii.compare y z) eqn:Hyz; [| |done].
    + apply Ascii.compare_eq_iff in Hyz as <-. by rewrite Hxy.
    + by rewrite (ascii_compare_lt_trans x y z).
Qed.

Lemma string_ltb_leb a b : String.ltb a b = negb (String.leb b a).
Proof.
  unfold String.ltb, String.leb. rewrite (String.compare_antisym a b).
  by destruct (String.compare b a).
Qed.

Section Scan.
Context `{C : Codec}.

#[local] Instance key_le_trans : Transitive key_le.
Proof. intros a b c. apply string_leb_trans. Qed.

#[local] Instance key_le_total : Total key_le.
Proof. intros a b. apply String.leb_total. Qed.

Lemma Query_sorted (db : UserDb) : StronglySorted key_le (Query db).
Proof. apply StronglySorted_merge_sort; apply _. Qed.

Lemma Query_elem_of (db : UserDb) rec :
  rec ∈ Query db ↔ records db !! rec.1 = Some rec.2.
Proof.
  unfold Query. rewrite merge_sort_Permutation.
  destruct rec as [k p]. apply elem_of_map_to_list.
Qed.

Lemma filter_all {A} (P : A → Prop) `{∀ x, Decision (P x)} (l : list A) :
  Forall P l → filter P l = l.
Proof.
  induction 1 as [|x l Hx Hl IH]; [done|].
  rewrite filter_cons, decide_True by done. by rewrite IH.
Qed.

(** On a sorted scan, [Jump k] leaves the records whose key is not below
    [k]. *)
Lemma Jump_sorted k (a : list (string * packed)) :
  StronglySorted key_le a →
  Jump k a = filter (λ rec, String.ltb rec.1 k = false) a.
Proof.
  induction 1 as [|rec a Ha IH Hle]; simpl; [done|].
  rewrite filter_cons. destruct (String.ltb rec.1 k) eqn:Hlt.
  - by rewrite decide_False.
  - rewrite decide_True by done. f_equal. symmetry. apply filter_all.
    eapply Forall_impl; [exact Hle|]. intros rec' Hrec'. simpl.
    rewrite string_ltb_leb in Hlt |- *. apply negb_false_iff in Hlt.
    apply negb_false_iff. by eapply string_leb_trans.
Qed.

Lemma scan_elem_of (temp : UserDb) rec :
  rec ∈ Jump " " (Query temp) ↔ scanned temp rec.
Proof.
  rewrite Jump_sorted by apply Query_sorted.
  rewrite list_elem_of_filter, Query_elem_of. unfold scanned. tauto.
Qed.

Lemma entry_count_filter fails (a : list (string * packed)) :
  entry_count fails a = length (filter (λ rec, is_Some (written_key fails rec)) a).
Proof.
  unfold entry_count. induction a as [|rec a IH]; [done|].
  rewrite filter_cons. unfold omap. simpl.
  fold (omap (written_key fails) a).
  destruct (written_key fails rec) as [key|] eqn:Hkey.
  - rewrite decide_True by done. simpl. by rewrite IH.
  - rewrite decide_False by by intros []. done.
Qed.

Lemma scan_entry_count fails (temp : UserDb) :
  entry_count fails (Jump " " (Query temp)) = length (written_entries fails temp).
Proof.
  rewrite entry_count_filter, Jump_sorted by apply Query_sorted.
  rewrite list_filter_filter. unfold written_entries, Query.
  by rewrite merge_sort_Permutation.
Qed.

Lemma written_key_Some fails (rec : string * packed) key :
  written_key fails rec = Some key ↔ sanitize_key rec.1 = Some key ∧ fails key = false.
Proof.
  unfold written_key. destruct (sanitize_key rec.1) as [key'|].
  - destruct (fails key') eqn:Hf.
    + split; [done|]. intros [[= ->] Hk]. congruence.
    + split; [by intros [= ->]|by intros [? _]].
  - split; [done|by intros [? _]].
Qed.

(** The written entries are among the entries, and are all of them when no
    write fails. *)
Lemma written_entries_le fails (temp : UserDb) :
  (length (written_entries fails temp) ≤ length (snapshot_entries temp))%nat ∧
  ((∀ key, fails key = false) → written_entries fails temp = snapshot_entries temp).
Proof.
  unfold written_entries, snapshot_entries.
  generalize (map_to_list (records temp)). intros l. split.
  - induction l as [|rec l IH]; [done|]. rewrite !filter_cons.
    destruct (decide (is_Some (written_key fails rec) ∧ String.ltb rec.1 " " = false))
      as [[[key Hw] Hlt]|Hno].
    + apply written_key_Some in Hw as [Hs _].
      rewrite decide_True by (split; [by eexists|done]). simpl. lia.
    + case_decide; simpl; lia.
  - intros Hnever. induction l as [|rec l IH]; [done|]. rewrite !filter_cons, IH.
    assert (written_key fails rec = sanitize_key rec.1) as ->; [|done].
    unfold written_key. destruct (sanitize_key rec.1) as [key|]; [|done].
    by rewrite Hnever.
Qed.

End Scan.

Section MergeFacts.
Context `{C : Codec} (fails : string → bool).

Lemma merge_record_skip tl tr tm dest n rec :
  written_key fails rec = None → merge_record fails tl tr tm (dest, n) rec = (dest, n).
Proof.
  unfold merge_record, written_key, Update.
  destruct (sanitize_key rec.1) as [key|]; [|done]. by destruct (fails key).
Qed.

Lemma merge_record_write tl tr tm dest n rec key :
  written_key fails rec = Some key →
  merge_record fails tl tr tm (dest, n) rec =
  (set_records (<[key := Pack (merged_value tl tr tm rec.2 (Fetch dest key))]> (records dest)) dest,
   S n).
Proof.
  unfold merge_record, written_key, Update.
  destruct (sanitize_key rec.1) as [key'|]; [|done].
  destruct (fails key') eqn:Hf; [done|]. by intros [= <-].
Qed.

End MergeFacts.

(** ** The merge loop on the records alone *)

Section MergeLoop.
Context `{C : Codec} (fails : string → bool).

Lemma set_records_id (db : UserDb) : set_records (records db) db = db.
Proof. by destruct db. Qed.

Lemma set_records_set_records r r' (db : UserDb) :
  set_records r (set_records r' db) = set_records r db.
Proof. done. Qed.

Lemma entry_count_cons rec (a : list (string * packed)) :
  entry_count fails (rec :: a) =
  ((match written_key fails rec with Some _ => 1 | None => 0 end) + entry_count fails a)%nat.
Proof. unfold entry_count, omap. simpl. by destruct (written_key fails rec). Qed.

Lemma fold_merge_record tl tr tm a dest n :
  fold_left (merge_record fails tl tr tm) a (dest, n) =
  (set_records (fold_left (merge_records fails tl tr tm) a (records dest)) dest,
   n + entry_count fails a).
Proof.
  revert dest n. induction a as [|rec a IH]; intros dest n.
  - simpl. by rewrite set_records_id, Nat.add_0_r.
  - cbn [fold_left]. rewrite entry_count_cons. unfold merge_records at 2.
    destruct (written_key fails rec) as [key|] eqn:Hkey.
    + rewrite (merge_record_write fails tl tr tm dest n rec key Hkey), IH.
      simpl. unfold Fetch. f_equal. lia.
    + by rewrite (merge_record_skip fails tl tr tm dest n rec Hkey), IH.
Qed.

Lemma update_metadata_records throws uid tm (dest : UserDb) :
  records (update_metadata throws uid tm dest) = records dest.
Proof.
  unfold update_metadata, MetaUpdate.
  by repeat (case_match; simplify_eq/=).
Qed.

(** [Restore_merge], with the loop on the records spelled out. *)
Lemma Restore_merge_unfold throws uid (temp dest : UserDb) :
  Restore_merge fails throws uid temp dest =
  let tl := GetTickCount dest in
  let tr := GetTickCount temp in
  let tm := N.max tl tr in
  let a := Jump " " (Query temp) in
  let d := set_records (fold_left (merge_records fails tl tr tm) a (records dest)) dest in
  (if decide (0 < entry_count fails a) then update_metadata throws uid tm d else d,
   entry_count fails a).
Proof. unfold Restore_merge. by rewrite fold_merge_record. Qed.

Lemma rescale_tick b (v : UserDbValue) : tick (rescale b v) = tick v.
Proof. unfold rescale. by case_match. Qed.

Lemma rescale_commits b (v : UserDbValue) : commits (rescale b v) = commits v.
Proof. unfold rescale. by case_match. Qed.

Lemma rescale_fresh b (v : UserDbValue) : (b ≤ tick v)%N → rescale b v = v.
Proof.
  intros Hb. unfold rescale.
  by destruct (N.ltb_spec (tick v) b); [lia|].
Qed.

Lemma merged_value_tick tl tr tm p o : tick (merged_value tl tr tm p o) = tm.
Proof. done. Qed.

End MergeLoop.

(** ** Merging the same snapshot again *)

Section Idempotence.
Context `{W : Weight} {WO : WeightOrder W} {C : Codec} {RT : CodecRoundTrip C}.
Context (fails : string → bool).

Lemma merged_value_ge tl tr tm p o :
  (commits (Unpack p) ≤ commits (merged_value tl tr tm p o))%Z ∧
  dee_le (dee (rescale tr (Unpack p))) (dee (merged_value tl tr tm p o)).
Proof.
  unfold merged_value. destruct o as [l|]; simpl.
  - rewrite !rescale_commits. split; [lia|apply dee_le_max_l].
  - rewrite rescale_commits. split; [lia|apply dee_le_refl].
Qed.

(** Over a value the merge itself wrote, a later record of the same key
    only raises the count and the weight. *)
Lemma merged_value_over tl tr tm p x :
  (tl ≤ tm)%N → tick x = tm →
  (commits x ≤ commits (merged_value tl tr tm p (Some (Pack x))))%Z ∧
  dee_le (dee x) (dee (merged_value tl tr tm p (Some (Pack x)))).
Proof.
  intros Htl Hx. unfold merged_value. simpl.
  rewrite Unpack_Pack, (rescale_fresh tl x) by lia.
  rewrite rescale_commits. split; [lia|apply dee_le_max_r].
Qed.

Lemma merge_records_absorbs tl tr tm m rec :
  absorbed fails tr tm (merge_records fails tl tr tm m rec) rec.
Proof.
  intros key Hkey. unfold merge_records. rewrite Hkey.
  eexists. rewrite lookup_insert_eq. split; [done|].
  split; [done|]. apply merged_value_ge.
Qed.

Lemma merge_records_keeps tl tr tm m rec rec' :
  (tl ≤ tm)%N → absorbed fails tr tm m rec' → absorbed fails tr tm (merge_records fails tl tr tm m rec) rec'.
Proof.
  intros Htl Habs key' Hkey'. destruct (Habs key' Hkey') as (x & Hx & Htx & Hcx & Hdx).
  unfold merge_records. destruct (written_key fails rec) as [key|] eqn:Hkey; [|by eauto].
  destruct (decide (key = key')) as [->|Hne].
  - rewrite Hx. eexists. rewrite lookup_insert_eq. split; [done|]. split; [done|].
    destruct (merged_value_over tl tr tm rec.2 x Htl Htx) as [Hc Hd].
    split; [lia|]. by eapply dee_le_trans.
  - exists x. by rewrite lookup_insert_ne.
Qed.

Lemma fold_merge_records_absorbs tl tr tm a m :
  (tl ≤ tm)%N →
  ∀ rec, rec ∈ a ∨ absorbed fails tr tm m rec →
         absorbed fails tr tm (fold_left (merge_records fails tl tr tm) a m) rec.
Proof.
  intros Htl. revert m. induction a as [|r a IH]; intros m rec Hrec; simpl.
  - destruct Hrec as [Hin|]; [|done]. by apply elem_of_nil in Hin.
  - apply IH. destruct Hrec as [Hin|Habs].
    + apply elem_of_cons in Hin as [->|Hin]; [|by left].
      right. apply merge_records_absorbs.
    + right. by apply merge_records_keeps.
Qed.



End Idempotence.

Section IdempotenceTheorem.
Context `{W : Weight} {WO : WeightOrder W} {C : Codec} {RT : CodecRoundTrip C}.
Context (fails : string → bool).

Lemma update_metadata_tick throws uid tm (d : UserDb) :
  GetTickCount (update_metadata throws uid tm d) =
  if throws "/tick" then GetTickCount d else tm.
Proof.
  unfold update_metadata, MetaUpdate. simpl.
  destruct (throws "/tick"); [done|]. by destruct (throws "/user_id").
Qed.

Lemma update_metadata_user_id throws uid tm (d : UserDb) :
  GetUserId (update_metadata throws uid tm d) =
  if throws "/tick" || throws "/user_id" then GetUserId d else uid.
Proof.
  unfold update_metadata, MetaUpdate. simpl.
  destruct (throws "/tick"); [done|]. by destruct (throws "/user_id").
Qed.



End IdempotenceTheorem.

(** ** [Restore]: when it fails and what it leaves *)

Section RestoreFacts.
Context `{C : Codec}.

Lemma Open_dest_entry env snapshot_file s db_name :
  (if decide (db_name = temp_name) then None
   else Open env (Restore_entry snapshot_file s) db_name) = Open_dest env s db_name.
Proof.
  unfold Open_dest, Open. case_decide; [done|].
  destruct (open_fails env db_name); [done|]. simpl.
  by rewrite lookup_delete_ne.
Qed.

(** [Restore] as one case analysis over its checks. *)
Lemma Restore_unfold env snapshot_file s :
  Restore env snapshot_file s =
  match import_to_temp env s snapshot_file with
  | None => (false, Restore_entry snapshot_file s)
  | Some temp =>
      if negb (IsUserDb temp) then (false, Restore_entry snapshot_file s)
      else if decide (GetDbName temp = EmptyString) then (false, Restore_entry snapshot_file s)
      else match Open_dest env s (GetDbName temp) with
           | None => (false, Restore_entry snapshot_file s)
           | Some dest =>
               (true,
                set_dbs (<[GetDbName temp :=
                             (Restore_merge (update_fails env (GetDbName temp)) (meta_update_throws env)
                (user_id env) temp dest).1]>
                           (delete temp_name (dbs s)))
                        (log_call (CallRestore snapshot_file) s))
           end
  end.
Proof.
  unfold Restore, import_to_temp. cbv zeta.
  change (set_dbs (delete temp_name (dbs (log_call (CallRestore snapshot_file) s)))
            (log_call (CallRestore snapshot_file) s))
    with (Restore_entry snapshot_file s).
  destruct (open_fails env temp_name); [done|].
  change (snapshot_files (Restore_entry snapshot_file s)) with (snapshot_files s).
  destruct (snapshot_files s !! snapshot_file) as [[temp|]|]; [|done..].
  destruct (negb (IsUserDb temp)); [done|].
  case_decide; [done|].
  rewrite Open_dest_entry.
  destruct (Open_dest env s (GetDbName temp)) as [dest|]; [|done].
  by destruct (Restore_merge _ _ _ temp dest).
Qed.

(** A [Restore] that succeeded passed every check and merged. *)
Lemma Restore_true_inv env snapshot_file s s' :
  Restore env snapshot_file s = (true, s') →
  ∃ temp dest,
    import_to_temp env s snapshot_file = Some temp ∧
    IsUserDb temp = true ∧ GetDbName temp ≠ EmptyString ∧
    GetDbName temp ≠ temp_name ∧
    Open_dest env s (GetDbName temp) = Some dest ∧
    s' = set_dbs (<[GetDbName temp :=
                     (Restore_merge (update_fails env (GetDbName temp)) (meta_update_throws env)
                (user_id env) temp dest).1]>
                   (delete temp_name (dbs s)))
                 (log_call (CallRestore snapshot_file) s).
Proof.
  rewrite Restore_unfold.
  destruct (import_to_temp env s snapshot_file) as [temp|]; [|done].
  destruct (IsUserDb temp) eqn:Hud; [|done]. simpl.
  case_decide; [done|].
  destruct (Open_dest env s (GetDbName temp)) as [dest|] eqn:Hdest; [|done].
  intros [= <-]. exists temp, dest. repeat split; try done.
  intros Heq. unfold Open_dest in Hdest. by rewrite decide_True in Hdest.
Qed.

(** C6.  [Restore] returns false exactly when the snapshot cannot be
    brought into the temporary store (that store does not open, or the file
    does not restore into it), or what came in is not a user dictionary,
    or it names no dictionary, or the destination does not open for
    writing.  Past these checks it returns true whatever the number of
    entries merged, zero included. *)
Theorem Restore_fails_exactly (env : Env) (snapshot_file : string) (s : State) :
  ((Restore env snapshot_file s).1 = false ↔
     import_to_temp env s snapshot_file = None ∨
     ∃ temp, import_to_temp env s snapshot_file = Some temp ∧
             (IsUserDb temp = false ∨ GetDbName temp = EmptyString ∨
              Open_dest env s (GetDbName temp) = None)) ∧
  (∀ temp dest,
     import_to_temp env s snapshot_file = Some temp →
     IsUserDb temp = true → GetDbName temp ≠ EmptyString →
     Open_dest env s (GetDbName temp) = Some dest →
     (Restore env snapshot_file s).1 = true ∧
     ((Restore_merge (update_fails env (GetDbName temp)) (meta_update_throws env)
                (user_id env) temp dest).2 = 0 →
      (Restore env snapshot_file s).1 = true)).
Proof.
  rewrite Restore_unfold. split.
  - destruct (import_to_temp env s snapshot_file) as [temp|]; [|naive_solver].
    destruct (IsUserDb temp) eqn:Hud; simpl; [|naive_solver].
    case_decide as Hname; [naive_solver|].
    destruct (Open_dest env s (GetDbName temp)) as [dest|] eqn:Hdest; simpl.
    + split; [done|]. intros [?|(temp' & [= <-] & [?|[?|?]])]; congruence.
    + naive_solver.
  - intros temp dest -> -> Hname ->. simpl. by rewrite decide_False.
Qed.

End RestoreFacts.

(** ** What the merge writes: stamps, clock and owner *)

Section MergeEffects.
Context `{C : Codec} (fails : string → bool).

Lemma fold_merge_records_stamped tl tr tm a m :
  ∀ rec, rec ∈ a ∨ stamped fails tm m rec →
         stamped fails tm (fold_left (merge_records fails tl tr tm) a m) rec.
Proof.
  revert m. induction a as [|r a IH]; intros m rec Hrec; simpl.
  - destruct Hrec as [Hin|]; [|done]. by apply elem_of_nil in Hin.
  - apply IH. destruct Hrec as [Hin|Hst].
    + apply elem_of_cons in Hin as [->|Hin]; [|by left].
      right. intros key Hkey. unfold merge_records. rewrite Hkey.
      eexists. by rewrite lookup_insert_eq.
    + right. intros key' Hkey'. destruct (Hst key' Hkey') as (v & Hv & Htv).
      unfold merge_records. destruct (written_key fails r) as [key|]; [|by eauto].
      destruct (decide (key = key')) as [->|Hne].
      * eexists. by rewrite lookup_insert_eq.
      * exists v. by rewrite lookup_insert_ne.
Qed.

Lemma fold_merge_records_other tl tr tm a m key :
  ¬ merged_key fails a key →
  fold_left (merge_records fails tl tr tm) a m !! key = m !! key.
Proof.
  revert m. induction a as [|r a IH]; intros m Hkey; simpl; [done|].
  rewrite IH.
  - unfold merge_records. destruct (written_key fails r) as [key'|] eqn:Hr; [|done].
    apply lookup_insert_ne. intros ->. apply Hkey. exists r. split; [by left|done].
  - intros (rec & Hin & Hrec). apply Hkey. exists rec. split; [by right|done].
Qed.

Lemma entry_count_0 (a : list (string * packed)) :
  entry_count fails a = 0 → ∀ key, ¬ merged_key fails a key.
Proof.
  unfold entry_count. intros Hn key (rec & Hin & Hrec).
  apply length_zero_iff_nil in Hn.
  assert (key ∈ omap (written_key fails) a) as Hk.
  { apply list_elem_of_omap. by exists rec. }
  rewrite Hn in Hk. by apply elem_of_nil in Hk.
Qed.

Lemma entry_count_pos (a : list (string * packed)) key :
  merged_key fails a key → 0 < entry_count fails a.
Proof.
  intros Hkey. destruct (entry_count fails a) eqn:Hn; [|lia].
  by destruct (entry_count_0 a Hn key).
Qed.

(** The records after the merge. *)
Lemma Restore_merge_records throws uid (temp dest : UserDb) :
  records (Restore_merge fails throws uid temp dest).1 =
  fold_left (merge_records fails (GetTickCount dest) (GetTickCount temp)
               (N.max (GetTickCount dest) (GetTickCount temp)))
            (Jump " " (Query temp)) (records dest).
Proof.
  rewrite Restore_merge_unfold. cbv zeta. simpl.
  case_decide; [|done]. by rewrite update_metadata_records.
Qed.

Lemma Restore_merge_count throws uid (temp dest : UserDb) :
  (Restore_merge fails throws uid temp dest).2 = entry_count fails (Jump " " (Query temp)).
Proof. by rewrite Restore_merge_unfold. Qed.

(** With no entry merged the destination is what it was. *)
Lemma Restore_merge_nothing throws uid (temp dest : UserDb) :
  (Restore_merge fails throws uid temp dest).2 = 0 →
  (Restore_merge fails throws uid temp dest).1 = dest.
Proof.
  rewrite Restore_merge_unfold. cbv zeta. simpl. intros Hn.
  rewrite decide_False by lia.
  destruct dest as [u nm id t r]. unfold set_records. simpl. f_equal.
  apply map_eq. intros key. apply fold_merge_records_other.
  by apply entry_count_0.
Qed.

(** The clock and the owner after the merge, case by case. *)
Lemma Restore_merge_meta throws uid (temp dest : UserDb) :
  let r := Restore_merge fails throws uid temp dest in
  let tm := N.max (GetTickCount dest) (GetTickCount temp) in
  GetTickCount r.1 =
    (if decide (0 < r.2) then if throws "/tick" then GetTickCount dest else tm
     else GetTickCount dest) ∧
  GetUserId r.1 =
    (if decide (0 < r.2)
     then if throws "/tick" || throws "/user_id" then GetUserId dest else uid
     else GetUserId dest).
Proof.
  rewrite Restore_merge_unfold. cbv zeta. simpl.
  case_decide; [|done].
  by rewrite update_metadata_tick, update_metadata_user_id.
Qed.

Lemma Restore_merge_stamps throws uid (temp dest : UserDb) key :
  merged_key fails (Jump " " (Query temp)) key →
  ∃ v, records (Restore_merge fails throws uid temp dest).1 !! key = Some (Pack v) ∧
       tick v = N.max (GetTickCount dest) (GetTickCount temp).
Proof.
  intros (rec & Hin & Hrec). rewrite Restore_merge_records.
  by eapply (fold_merge_records_stamped _ _ _ _ _ rec); [left|].
Qed.

End MergeEffects.

Section WrittenKeys.
Context `{C : Codec} (fails : string → bool).

(** A key the scan writes to is the sanitized key of a record the scan
    reaches, and the store takes the write. *)
Lemma merged_key_scanned (temp : UserDb) key :
  merged_key fails (Jump " " (Query temp)) key ↔
  ∃ k p, scanned temp (k, p) ∧ sanitize_key k = Some key ∧ fails key = false.
Proof.
  unfold merged_key. split.
  - intros ([k p] & Hin%scan_elem_of & [Hs Hf]%written_key_Some). by exists k, p.
  - intros (k & p & Hin%scan_elem_of & Hs & Hf). exists (k, p).
    split; [done|]. by apply written_key_Some.
Qed.


(** [num_entries] is positive exactly when a record of the scan was
    written. *)
Lemma entry_count_pos_iff (a : list (string * packed)) :
  0 < entry_count fails a ↔ ∃ key, merged_key fails a key.
Proof.
  split.
  - unfold entry_count, merged_key. intros Hn.
    destruct (omap (written_key fails) a) as [|key l] eqn:Ho; [simpl in Hn; lia|].
    assert (key ∈ omap (written_key fails) a) as Hin by (rewrite Ho; by left).
    apply list_elem_of_omap in Hin as (rec & Hin & Hrec). by exists key, rec.
  - intros [key Hkey]. by eapply entry_count_pos.
Qed.



End WrittenKeys.

Section ClockTheorems.
Context `{C : Codec}.

(** C3, as the code has it.  After a [Restore] that returned true: the
    clock of the destination has not gone down and is at most the larger
    of the two clocks; it is that larger clock when [num_entries] is
    positive and the write of ["/tick"] did not throw; [num_entries] is
    positive exactly when some record the scan yields was written; every
    such record leaves its sanitized key holding a value stamped with the
    larger clock; a key under which no record was written (it is the
    sanitized key of no record the scan yields, or the write to it fails)
    keeps what it held; and with [num_entries] zero the destination is left
    as it was. *)
Theorem Restore_advances_clock (env : Env) (snapshot_file : string) (s s' : State) :
  Restore env snapshot_file s = (true, s') →
  ∃ temp dest dest',
    import_to_temp env s snapshot_file = Some temp ∧
    Open_dest env s (GetDbName temp) = Some dest ∧
    dbs s' !! GetDbName temp = Some dest' ∧
    let tick_max := N.max (GetTickCount dest) (GetTickCount temp) in
    let fails := update_fails env (GetDbName temp) in
    let num_entries :=
      (Restore_merge fails (meta_update_throws env) (user_id env) temp dest).2 in
    (GetTickCount dest ≤ GetTickCount dest' ≤ tick_max)%N ∧
    (0 < num_entries → meta_update_throws env "/tick" = false →
       GetTickCount dest' = tick_max) ∧
    (0 < num_entries ↔
       ∃ k p key, scanned temp (k, p) ∧ sanitize_key k = Some key ∧ fails key = false) ∧
    (∀ k p key, scanned temp (k, p) → sanitize_key k = Some key → fails key = false →
       ∃ v, records dest' !! key = Some (Pack v) ∧ tick v = tick_max) ∧
    (∀ key,
       (∀ k p, scanned temp (k, p) → sanitize_key k = Some key → fails key = true) →
       records dest' !! key = records dest !! key) ∧
    (num_entries = 0 → dest' = dest).
Proof.
  intros (temp & dest & Himp & Hud & Hname & Htemp & Hdest & ->)%Restore_true_inv.
  exists temp, dest. eexists. split; [done|]. split; [done|].
  split; [by simpl; rewrite lookup_insert_eq|]. cbv zeta.
  set (fails := update_fails env (GetDbName temp)).
  destruct (Restore_merge_meta fails (meta_update_throws env) (user_id env) temp dest)
    as [Htick _]. cbv zeta in Htick.
  split; [|split; [|split; [|split; [|split]]]].
  - rewrite Htick. repeat case_match; lia.
  - intros Hn Hthrow. rewrite Htick, Hthrow. by rewrite decide_True.
  - rewrite Restore_merge_count, entry_count_pos_iff. split.
    + intros [key (k & p & Hscan & Hs & Hf)%merged_key_scanned]. by exists k, p, key.
    + intros (k & p & key & Hscan & Hs & Hf). exists key.
      apply merged_key_scanned. by exists k, p.
  - intros k p key Hscan Hs Hf. apply Restore_merge_stamps.
    apply merged_key_scanned. by exists k, p.
  - intros key Hno. rewrite Restore_merge_records. apply fold_merge_records_other.
    intros (k & p & Hscan & Hs & Hf)%merged_key_scanned.
    rewrite (Hno k p Hscan Hs) in Hf. done.
  - apply Restore_merge_nothing.
Qed.

(** C7, as the code has it.  When at least one entry was merged and
    neither metadata write throws, the merge leaves the clock of the
    destination at [tick_max] and its owner at the local identity; when no
    entry was merged it leaves both as they were. *)
Theorem Restore_merge_updates_metadata (fails throws : string → bool) (uid : string)
    (temp dest : UserDb) :
  let r := Restore_merge fails throws uid temp dest in
  let tick_max := N.max (GetTickCount dest) (GetTickCount temp) in
  (0 < r.2 → throws "/tick" = false → throws "/user_id" = false →
     GetTickCount r.1 = tick_max ∧ GetUserId r.1 = uid) ∧
  (r.2 = 0 → GetTickCount r.1 = GetTickCount dest ∧ GetUserId r.1 = GetUserId dest).
Proof.
  cbv zeta. destruct (Restore_merge_meta fails throws uid temp dest) as [Htick Huid].
  cbv zeta in Htick, Huid. rewrite Htick, Huid. split.
  - intros Hn -> ->. rewrite !decide_True by done. done.
  - intros ->. rewrite !decide_False by lia. done.
Qed.

(** C10.  A [Restore] that passed its checks and counted at least one
    entry ([num_entries] positive: [dest.Update] returned true for a record
    of the scan) returns true also when a metadata write throws.  The
    destination then holds a record stamped [tick_max], as does every key a
    record was written under.  When the write of ["/tick"] throws, the
    destination keeps its old clock and owner: with a snapshot clock above
    the destination's, the stored clock is strictly below those stamps.
    When only the write of ["/user_id"] throws, the clock is [tick_max] and
    the owner is the old one. *)
Theorem Restore_swallows_metadata_failure (env : Env) (snapshot_file : string)
    (s : State) (temp dest : UserDb) :
  import_to_temp env s snapshot_file = Some temp →
  IsUserDb temp = true → GetDbName temp ≠ EmptyString →
  Open_dest env s (GetDbName temp) = Some dest →
  let fails := update_fails env (GetDbName temp) in
  0 < (Restore_merge fails (meta_update_throws env) (user_id env) temp dest).2 →
  meta_update_throws env "/tick" = true ∨ meta_update_throws env "/user_id" = true →
  let tick_max := N.max (GetTickCount dest) (GetTickCount temp) in
  ∃ s' dest',
    Restore env snapshot_file s = (true, s') ∧
    dbs s' !! GetDbName temp = Some dest' ∧
    (∃ key v, records dest' !! key = Some (Pack v) ∧ tick v = tick_max) ∧
    (∀ k p key, scanned temp (k, p) → sanitize_key k = Some key → fails key = false →
       ∃ v, records dest' !! key = Some (Pack v) ∧ tick v = tick_max) ∧
    (meta_update_throws env "/tick" = true →
       GetTickCount dest' = GetTickCount dest ∧ GetUserId dest' = GetUserId dest ∧
       ((GetTickCount dest < GetTickCount temp)%N → (GetTickCount dest' < tick_max)%N)) ∧
    (meta_update_throws env "/tick" = false →
       GetTickCount dest' = tick_max ∧ GetUserId dest' = GetUserId dest).
Proof.
  intros Himp Hud Hname Hdest. cbv zeta. intros Hn Hthrow.
  set (fails := update_fails env (GetDbName temp)) in *.
  rewrite Restore_unfold, Himp, Hud. simpl. rewrite decide_False by done.
  rewrite Hdest. do 2 eexists. split; [done|].
  split; [by simpl; rewrite lookup_insert_eq|].
  destruct (Restore_merge_meta fails (meta_update_throws env) (user_id env) temp dest)
    as [Htick Huid]. cbv zeta in Htick, Huid.
  rewrite decide_True in Htick by done. rewrite decide_True in Huid by done.
  split; [|split].
  - rewrite Restore_merge_count in Hn.
    apply entry_count_pos_iff in Hn as [key Hkey]. exists key.
    by apply Restore_merge_stamps.
  - intros k p key Hscan Hs Hf. apply Restore_merge_stamps.
    apply merged_key_scanned. by exists k, p.
  - fold fails. rewrite Htick, Huid. split.
    + intros ->. simpl. repeat split. lia.
    + intros Htk. rewrite Htk in *. destruct Hthrow as [?|Hu]; [done|]. by rewrite Hu.
Qed.

End ClockTheorems.

(** ** [Import]: the usage count of a line against the stored one *)

Section ImportFacts.
Context `{C : Codec}.

(** C4, as the code has it.  A line that stands for [key] with usage count
    [c], read while the store holds a value for [key] whose count is [k],
    is written back and counted (where [db.Update] returns false, store and
    count stay as they were); the value written has count [c] when [c] is
    negative, [max c k] when [c] is positive, and [k] when [c] is zero.
    Its weight and stamp are the stored ones. *)
Theorem import_line_commits (fails : string → bool) (db : UserDb) (num_entries : nat)
    (line key : string) (c : Z) (stored : packed) :
  import_parse line = Some (key, c) →
  Fetch db key = Some stored →
  ∃ v, import_line fails (db, num_entries) line =
         (if fails key then (db, num_entries)
          else (set_records (<[key := Pack v]> (records db)) db, S num_entries)) ∧
       ((c < 0)%Z → commits v = c) ∧
       (c = 0%Z → commits v = commits (Unpack stored)) ∧
       ((0 < c)%Z → commits v = Z.max c (commits (Unpack stored))) ∧
       dee v = dee (Unpack stored) ∧ tick v = tick (Unpack stored).
Proof.
  intros Hparse Hfetch. unfold import_line, Update. rewrite Hparse.
  eexists. split; [by destruct (fails key)|]. unfold imported_value. rewrite Hfetch.
  destruct (Z.ltb_spec 0 c), (Z.ltb_spec c 0); simpl; repeat split; intros; lia || done.
Qed.

End ImportFacts.

(** ** [Synchronize] and [SynchronizeAll] *)

Section SynchronizeFacts.
Context `{C : Codec}.

Lemma Restore_frame env file s :
  dirs (Restore env file s).2 = dirs s ∧
  snapshot_files (Restore env file s).2 = snapshot_files s ∧
  calls (Restore env file s).2 = (calls s ++ [CallRestore file])%list.
Proof.
  rewrite Restore_unfold. by repeat (case_match; simpl).
Qed.

Lemma peer_snapshots_frame env dict_name s s' entries :
  dirs s' = dirs s → snapshot_files s' = snapshot_files s →
  peer_snapshots env dict_name s' entries = peer_snapshots env dict_name s entries.
Proof.
  intros Hd Hf. unfold peer_snapshots, fs_exists, fs_is_directory. by rewrite Hd, Hf.
Qed.

Lemma sync_loop env dict_name entries success s :
  fold_left (sync_peer env (snapshot_name env dict_name)) entries (success, s) =
  ((success && forallb id (run_restores env (peer_snapshots env dict_name s entries) s).1),
   (run_restores env (peer_snapshots env dict_name s entries) s).2).
Proof.
  revert success s. induction entries as [|path entries IH]; intros success s; simpl.
  - by rewrite andb_true_r.
  - unfold peer_snapshots. simpl. fold (peer_snapshots env dict_name s entries).
    destruct (fs_is_directory s path); simpl; [|apply IH].
    destruct (fs_exists s (path_join path (snapshot_name env dict_name))); simpl;
      [|apply IH].
    destruct (Restore_frame env (path_join path (snapshot_name env dict_name)) s)
      as (Hd & Hf & _).
    destruct (Restore env (path_join path (snapshot_name env dict_name)) s)
      as [ok s1] eqn:HR. simpl in Hd, Hf.
    rewrite IH, (peer_snapshots_frame env dict_name s s1) by done.
    destruct (run_restores env (peer_snapshots env dict_name s entries) s1) as [oks s2].
    simpl. by destruct ok, success.
Qed.

Lemma run_restores_calls env files s :
  calls (run_restores env files s).2 = (calls s ++ (CallRestore <$> files))%list ∧
  length (run_restores env files s).1 = length files.
Proof.
  revert s. induction files as [|file files IH]; intros s; simpl.
  - by rewrite app_nil_r.
  - destruct (Restore_frame env file s) as (_ & _ & Hc).
    destruct (Restore env file s) as [ok s1]. simpl in Hc.
    destruct (IH s1) as [IHc IHl].
    destruct (run_restores env files s1) as [oks s2]. simpl in *.
    rewrite IHc, Hc, <- app_assoc. split; [done|]. by rewrite IHl.
Qed.

End SynchronizeFacts.

(** ** [Backup], step by step *)

Section BackupSteps.
Context `{C : Codec}.

(** [Backup] as one case analysis over its steps. *)
Lemma Backup_unfold env dict_name s :
  Backup env dict_name s =
  let s0 := log_call (CallBackup dict_name) s in
  match backup_source env s dict_name with
  | None => (Returns false, s0)
  | Some db =>
      let s1 := set_dbs (<[dict_name := db]> (dbs s)) s0 in
      if fs_exists s (user_data_sync_dir env) then
        if backup_fails env (own_snapshot env dict_name) then (Returns false, s1)
        else (Returns true,
              set_snapshot_files
                (<[own_snapshot env dict_name := Some db]> (snapshot_files s)) s1)
      else if create_directories_fails env (user_data_sync_dir env) then (Throws, s1)
      else
        let s2 := (fs_create_directories env (user_data_sync_dir env) s1).2 in
        if backup_fails env (own_snapshot env dict_name) then (Returns false, s2)
        else (Returns true,
              set_snapshot_files
                (<[own_snapshot env dict_name := Some db]> (snapshot_files s)) s2)
  end.
Proof.
  unfold Backup, backup_source, own_snapshot. cbv zeta.
  change (OpenReadOnly env (log_call (CallBackup dict_name) s) dict_name)
    with (OpenReadOnly env s dict_name).
  destruct (OpenReadOnly env s dict_name) as [db|]; [|done].
  destruct (if decide (GetUserId db = user_id env) then Some db
            else if close_fails env dict_name then None
            else if open_fails env dict_name then None
            else CreateMetadata env dict_name db) as [db'|]; [|done].
  change (fs_exists (set_dbs _ _) (user_data_sync_dir env))
    with (fs_exists s (user_data_sync_dir env)).
  destruct (fs_exists s (user_data_sync_dir env)); simpl.
  - by destruct (backup_fails env _).
  - unfold fs_create_directories_or_throw, fs_create_directories.
    destruct (create_directories_fails env (user_data_sync_dir env)); simpl; [done|].
    by destruct (backup_fails env _).
Qed.

Lemma Backup_calls env dict_name s :
  calls (Backup env dict_name s).2 = (calls s ++ [CallBackup dict_name])%list.
Proof.
  rewrite Backup_unfold. unfold fs_create_directories.
  by repeat (case_match; simplify_eq/=).
Qed.

Lemma backup_source_inv env s dict_name db' :
  backup_source env s dict_name = Some db' →
  ∃ db, dbs s !! dict_name = Some db ∧
        records db' = records db ∧ GetTickCount db' = GetTickCount db ∧
        GetUserId db' = user_id env ∧
        (GetUserId db = user_id env → db' = db).
Proof.
  unfold backup_source, OpenReadOnly, CreateMetadata.
  destruct (open_read_only_fails env dict_name); [done|].
  destruct (dbs s !! dict_name) as [db|]; [|done].
  case_decide as Howner.
  - intros [= <-]. by exists db.
  - destruct (close_fails env dict_name); [done|].
    destruct (open_fails env dict_name); [done|].
    destruct (create_metadata_fails env dict_name); [done|].
    intros [= <-]. by exists db.
Qed.

(** A [Backup] that returned true: the store it exported and the state it
    left. *)
Lemma Backup_true_inv env dict_name s s' :
  Backup env dict_name s = (Returns true, s') →
  ∃ db', backup_source env s dict_name = Some db' ∧
         dbs s' = <[dict_name := db']> (dbs s) ∧
         snapshot_files s' =
           <[own_snapshot env dict_name := Some db']> (snapshot_files s) ∧
         fs_is_directory s' (user_data_sync_dir env)
           || bool_decide (is_Some (snapshot_files s !! user_data_sync_dir env)) = true.
Proof.
  rewrite Backup_unfold. cbv zeta.
  destruct (backup_source env s dict_name) as [db'|]; [|done].
  destruct (fs_exists s (user_data_sync_dir env)) eqn:Hex.
  - destruct (backup_fails env _); [done|]. intros [= <-]. by exists db'.
  - destruct (create_directories_fails env _) eqn:Hcr; [done|].
    destruct (backup_fails env _); [done|]. intros [= <-]. exists db'.
    split; [done|]. unfold fs_create_directories. rewrite Hcr. simpl.
    split; [done|]. split; [done|].
    unfold fs_is_directory. simpl. rewrite lookup_insert_eq.
    by rewrite bool_decide_true by by eexists.
Qed.

(** [Backup] is left by an exception exactly when the store can be
    exported and the sync directory of this installation is missing and
    cannot be created. *)
Lemma Backup_throws env dict_name s :
  (Backup env dict_name s).1 = Throws ↔
  is_Some (backup_source env s dict_name) ∧
  fs_exists s (user_data_sync_dir env) = false ∧
  create_directories_fails env (user_data_sync_dir env) = true.
Proof.
  rewrite Backup_unfold. cbv zeta.
  destruct (backup_source env s dict_name) as [db'|].
  - destruct (fs_exists s (user_data_sync_dir env)),
      (create_directories_fails env (user_data_sync_dir env)),
      (backup_fails env (own_snapshot env dict_name)); simpl;
      (split; [intros ?|intros (_ & ? & ?)]); try done; by eauto.
  - simpl. split; [done|]. by intros [[] _].
Qed.

End BackupSteps.

Section RestoreTwice.
Context `{W : Weight} {WO : WeightOrder W} {C : Codec} {RT : CodecRoundTrip C}.



End RestoreTwice.

Section SynchronizeTheorems.
Context `{C : Codec}.

Lemma sync_root_calls env s s1 : sync_root env s = Some s1 → calls s1 = calls s.
Proof.
  unfold sync_root, fs_create_directories.
  repeat (case_match; simplify_eq/=); by intros [= <-].
Qed.

Lemma sync_root_None env s :
  sync_root env s = None →
  fs_exists s (sync_dir env) = false ∧ create_directories_fails env (sync_dir env) = true.
Proof. unfold sync_root. by repeat case_match. Qed.

(** [Synchronize] as one case analysis: the sync directory, its listing,
    the merges, the backup. *)
Lemma Synchronize_unfold env dict_name s :
  Synchronize env dict_name s =
  match sync_root env s with
  | None => (Returns false, s)
  | Some s1 =>
      match fs_directory_iterator s1 (sync_dir env) with
      | None => (Throws, s1)
      | Some entries =>
          let merges := run_restores env (peer_snapshots env dict_name s1 entries) s1 in
          let backup := Backup env dict_name merges.2 in
          (sync_outcome merges.1 backup.1, backup.2)
      end
  end.
Proof.
  unfold Synchronize, sync_root.
  assert (∀ s1 : State,
    (let '(ok, s2) := (true, s1) in
     if negb ok then (Returns false, s2)
     else match fs_directory_iterator s2 (sync_dir env) with
          | Some entries =>
              let '(success, s3) :=
                fold_left (sync_peer env (snapshot_name env dict_name)) entries (true, s2) in
              match Backup env dict_name s3 with
              | (Returns ok0, s4) => (Returns (if ok0 then success else false), s4)
              | (Throws, s4) => (Throws, s4)
              end
          | None => (Throws, s2)
          end) =
    match fs_directory_iterator s1 (sync_dir env) with
    | None => (Throws, s1)
    | Some entries =>
        let merges := run_restores env (peer_snapshots env dict_name s1 entries) s1 in
        let backup := Backup env dict_name merges.2 in
        (sync_outcome merges.1 backup.1, backup.2)
    end) as Hrun.
  { intros s1. simpl. destruct (fs_directory_iterator s1 (sync_dir env)); [|done].
    rewrite sync_loop. simpl. destruct (Backup env dict_name _) as [[[]|] s2]; simpl.
    - by rewrite andb_true_r.
    - by rewrite andb_false_r.
    - done. }
  destruct (fs_exists s (sync_dir env)); [apply Hrun|].
  unfold fs_create_directories.
  destruct (create_directories_fails env (sync_dir env)); [done|]. apply Hrun.
Qed.

(** C8, as the code has it.  With the sync directory in place (found, or
    created on the spot), [Synchronize] calls [Restore] on the snapshot of
    the dictionary in every peer directory that has one, in the order of
    the directory, going on after a [Restore] that returned false; then it
    calls [Backup].  When [Backup] returns, [Synchronize] returns true
    exactly when every one of these calls returned true; when [Backup] is
    left by an exception, which is when the store can be exported and the
    sync directory of this installation is missing and cannot be created
    (line 66), the exception leaves [Synchronize] as well, after the
    merges.  When the sync directory is missing and cannot be created,
    [Synchronize] returns false at once: no [Restore], no [Backup], the
    state untouched; when it cannot be listed, the exception of the
    directory iterator leaves [Synchronize] before any [Restore]. *)
Theorem Synchronize_merges_every_peer (env : Env) (dict_name : string) (s : State) :
  (sync_root env s = None → Synchronize env dict_name s = (Returns false, s)) ∧
  (∀ s1, sync_root env s = Some s1 → fs_directory_iterator s1 (sync_dir env) = None →
         Synchronize env dict_name s = (Throws, s1)) ∧
  (∀ s1 entries,
     sync_root env s = Some s1 →
     fs_directory_iterator s1 (sync_dir env) = Some entries →
     let files := peer_snapshots env dict_name s1 entries in
     let merges := run_restores env files s1 in
     let backup := Backup env dict_name merges.2 in
     Synchronize env dict_name s = (sync_outcome merges.1 backup.1, backup.2) ∧
     length merges.1 = length files ∧
     calls backup.2 = (calls s ++ (CallRestore <$> files) ++ [CallBackup dict_name])%list ∧
     ((Synchronize env dict_name s).1 = Returns true ↔
        (∀ ok, ok ∈ merges.1 → ok = true) ∧ backup.1 = Returns true) ∧
     ((Synchronize env dict_name s).1 = Throws ↔ backup.1 = Throws) ∧
     (backup.1 = Throws ↔
        is_Some (backup_source env merges.2 dict_name) ∧
        fs_exists merges.2 (user_data_sync_dir env) = false ∧
        create_directories_fails env (user_data_sync_dir env) = true)).
Proof.
  split; [|split].
  - intros Hroot. by rewrite Synchronize_unfold, Hroot.
  - intros s1 Hroot Hit. by rewrite Synchronize_unfold, Hroot, Hit.
  - intros s1 entries Hroot Hit. cbv zeta.
    destruct (run_restores_calls env (peer_snapshots env dict_name s1 entries) s1)
      as [Hcalls Hlen].
    rewrite Synchronize_unfold, Hroot, Hit. cbv zeta.
    split; [done|]. split; [done|]. split; [|split; [|split]].
    + rewrite Backup_calls, Hcalls, (sync_root_calls env s s1 Hroot).
      by rewrite <- app_assoc.
    + simpl. destruct (Backup env dict_name _).1 as [ok|]; simpl; [|by split; [|intros []]].
      split.
      * intros [= [Hall ->]%andb_true_iff]. split; [|done].
        intros ok' Hok. rewrite forallb_forall in Hall.
        by apply Hall, list_elem_of_In.
      * intros [Hall [= ->]]. rewrite andb_true_r. f_equal. apply forallb_forall.
        intros ok' Hok. by apply Hall, list_elem_of_In.
    + simpl. by destruct (Backup env dict_name _).1.
    + apply Backup_throws.
Qed.

Lemma synchronize_each_true env user_dicts s s' :
  synchronize_each env user_dicts s = (Returns true, s') ↔
  syncs_in_turn env user_dicts s s'.
Proof.
  revert s. induction user_dicts as [|dict_name rest IH]; intros s; simpl.
  - split.
    + intros [= <-]. constructor.
    + by inversion 1.
  - split.
    + destruct (Synchronize env dict_name s) as [[[]|] s1] eqn:Hs; [|done..].
      intros Hrest%IH. by econstructor.
    + inversion 1 as [|? ? ? s1 ? Hs Hrest]; subst. rewrite Hs. by apply IH.
Qed.

Lemma synchronize_each_false env user_dicts s s' :
  synchronize_each env user_dicts s = (Returns false, s') ↔
  ∃ done_ dict_name rest s1,
    user_dicts = (done_ ++ dict_name :: rest)%list ∧
    syncs_in_turn env done_ s s1 ∧
    Synchronize env dict_name s1 = (Returns false, s').
Proof.
  revert s. induction user_dicts as [|dict_name rest IH]; intros s; simpl.
  - split; [done|]. intros (done_ & ? & ? & ? & Heq & _). by destruct done_.
  - split.
    + destruct (Synchronize env dict_name s) as [[[]|] s1] eqn:Hs; [| |done].
      * intros (done_ & name & rest' & s2 & -> & Hdone & Hfail)%IH.
        exists (dict_name :: done_), name, rest', s2.
        split; [done|]. split; [by econstructor|done].
      * intros [= <-]. exists [], dict_name, rest, s.
        split; [done|]. split; [constructor|done].
    + intros (done_ & name & rest' & s1 & Heq & Hdone & Hfail).
      destruct done_ as [|d done_]; simplify_eq/=.
      * inversion Hdone; subst. by rewrite Hfail.
      * inversion Hdone as [|? ? ? s2 ? Hs Hrest]; subst. rewrite Hs.
        apply IH. by exists done_, name, rest', s1.
Qed.

(** C9.  [SynchronizeAll] returns true exactly when every listed
    dictionary was synchronized in turn and each [Synchronize] returned
    true; it returns false exactly when some dictionary of the list made
    [Synchronize] return false after all before it returned true, and the
    state it leaves is the one that [Synchronize] left: nothing is done
    for the dictionaries after it.  Over an empty list it returns true and
    leaves the state as it was. *)
Theorem SynchronizeAll_stops_at_first_failure (env : Env) (s : State) :
  (∀ s', SynchronizeAll env s = (Returns true, s') ↔
         syncs_in_turn env (GetUserDictList env s) s s') ∧
  (∀ s', SynchronizeAll env s = (Returns false, s') ↔
         ∃ done_ dict_name rest s1,
           GetUserDictList env s = (done_ ++ dict_name :: rest)%list ∧
           syncs_in_turn env done_ s s1 ∧
           Synchronize env dict_name s1 = (Returns false, s')) ∧
  (GetUserDictList env s = [] → SynchronizeAll env s = (Returns true, s)).
Proof.
  unfold SynchronizeAll. split; [|split].
  - intros s'. apply synchronize_each_true.
  - intros s'. apply synchronize_each_false.
  - by intros ->.
Qed.

End SynchronizeTheorems.

(** ** Two snapshots in either order *)

Section FoldCommute.
Context {A B : Type} (f : A → B → A).
Hypothesis f_comm : ∀ x a b, f (f x a) b = f (f x b) a.

Lemma fold_left_step_comm l x b : fold_left f l (f x b) = f (fold_left f l x) b.
Proof.
  revert x. induction l as [|a l IH]; intros x; simpl; [done|].
  by rewrite f_comm, IH.
Qed.

Lemma fold_left_comm l1 l2 x :
  fold_left f l1 (fold_left f l2 x) = fold_left f l2 (fold_left f l1 x).
Proof.
  revert x. induction l1 as [|a l1 IH]; intros x; simpl; [done|].
  by rewrite <- (IH (f x a)), (fold_left_step_comm l2).
Qed.

End FoldCommute.

Section PerKey.
Context `{C : Codec} (fails : string → bool).

Lemma contributions_nil_iff a key :
  contributions fails a key = [] ↔ ¬ merged_key fails a key.
Proof.
  unfold contributions, merged_key. split.
  - intros Hnil (rec & Hin & Hrec).
    assert (rec.2 ∈ omap (λ rec : string * packed,
              if decide (written_key fails rec = Some key) then Some rec.2 else None) a) as Hc.
    { apply list_elem_of_omap. exists rec. by rewrite decide_True. }
    rewrite Hnil in Hc. by apply elem_of_nil in Hc.
  - intros Hno. induction a as [|rec a IH]; simpl; [done|].
    unfold omap in *. simpl. case_decide as Hrec.
    + destruct Hno. exists rec. split; [by left|done].
    + apply IH. intros (rec' & Hin & Hrec'). apply Hno. exists rec'. split; [by right|done].
Qed.

Lemma fold_merge_records_lookup tl tr tm a m key :
  fold_left (merge_records fails tl tr tm) a m !! key =
  fold_left (λ o p, Some (Pack (merged_value tl tr tm p o))) (contributions fails a key) (m !! key).
Proof.
  revert m. induction a as [|rec a IH]; intros m; simpl; [done|].
  rewrite IH. unfold contributions at 2. unfold omap. simpl.
  fold (omap (λ rec : string * packed,
          if decide (written_key fails rec = Some key) then Some rec.2 else None) a).
  fold (contributions fails a key).
  unfold merge_records. destruct (written_key fails rec) as [key'|] eqn:Hrec.
  - case_decide as Heq.
    + simplify_eq. simpl. by rewrite lookup_insert_eq.
    + rewrite lookup_insert_ne by congruence. done.
  - by rewrite decide_False.
Qed.

End PerKey.

Section Commutativity.
Context `{W : Weight} {WO : WeightOrder W} {C : Codec} {RT : CodecRoundTrip C}.
Context (fails : string → bool).

Lemma merged_value_decoded tl tr tm p (o : option packed) :
  merged_value tl tr tm p (Pack <$> (Unpack <$> o)) = merged_value tl tr tm p o.
Proof. destruct o as [l|]; simpl; [|done]. unfold merged_value. by rewrite Unpack_Pack. Qed.

Lemma fold_value tl tr tm ps (o : option packed) :
  Unpack <$> fold_left (λ o p, Some (Pack (merged_value tl tr tm p o))) ps o =
  fold_left (merge_value tl tr tm) ps (Unpack <$> o).
Proof.
  revert o. induction ps as [|p ps IH]; intros o; simpl; [done|].
  rewrite IH. f_equal. unfold merge_value.
  rewrite merged_value_decoded. simpl. by rewrite Unpack_Pack.
Qed.

Lemma fold_packed tl tr tm ps (o : option packed) :
  ps ≠ [] →
  fold_left (λ o p, Some (Pack (merged_value tl tr tm p o))) ps o =
  Pack <$> fold_left (merge_value tl tr tm) ps (Unpack <$> o).
Proof.
  intros Hps. rewrite <- fold_value.
  destruct ps as [|p ps]; [done|]. simpl. clear Hps.
  generalize (merged_value tl tr tm p o). intros v.
  revert v. induction ps as [|q ps IH]; intros v; simpl.
  - by rewrite Unpack_Pack.
  - apply IH.
Qed.

(** The value of a key after the merge, from the value before it. *)
Lemma Restore_merge_value_at throws uid (temp dest : UserDb) key :
  value_at (Restore_merge fails throws uid temp dest).1 key =
  fold_left (merge_value (GetTickCount dest) (GetTickCount temp)
               (N.max (GetTickCount dest) (GetTickCount temp)))
            (contributions fails (Jump " " (Query temp)) key) (value_at dest key).
Proof.
  unfold value_at. by rewrite Restore_merge_records, fold_merge_records_lookup, fold_value.
Qed.

Lemma Restore_merge_packed throws uid (temp dest : UserDb) key :
  merged_key fails (Jump " " (Query temp)) key →
  records (Restore_merge fails throws uid temp dest).1 !! key =
  Pack <$> value_at (Restore_merge fails throws uid temp dest).1 key.
Proof.
  intros Hkey. rewrite Restore_merge_value_at.
  rewrite Restore_merge_records, fold_merge_records_lookup.
  apply fold_packed. intros Hnil. by apply contributions_nil_iff in Hnil.
Qed.

(** *** Counts *)

Lemma merge_value_commits tl tr tm o p :
  commits <$> merge_value tl tr tm o p = join_commits (commits <$> o) (commits (Unpack p)).
Proof.
  unfold merge_value, merged_value, join_commits. destruct o as [u|]; simpl.
  - by rewrite Unpack_Pack, !rescale_commits.
  - by rewrite rescale_commits.
Qed.

Lemma fold_commits tl tr tm ps o :
  commits <$> fold_left (merge_value tl tr tm) ps o =
  fold_left join_commits ((λ p, commits (Unpack p)) <$> ps) (commits <$> o).
Proof.
  revert o. induction ps as [|p ps IH]; intros o; simpl; [done|].
  by rewrite IH, merge_value_commits.
Qed.

Lemma join_commits_comm o a b :
  join_commits (join_commits o a) b = join_commits (join_commits o b) a.
Proof. unfold join_commits. destruct o; f_equal; lia. Qed.

Lemma Restore_merge_commits_at throws uid (temp dest : UserDb) key :
  commits_at (Restore_merge fails throws uid temp dest).1 key =
  fold_left join_commits
    ((λ p, commits (Unpack p)) <$> contributions fails (Jump " " (Query temp)) key)
    (commits_at dest key).
Proof. unfold commits_at. by rewrite Restore_merge_value_at, fold_commits. Qed.

(** *** Weights and stamps *)

Lemma merge_value_dee_first tl tr tm o p :
  dee <$> merge_value tl tr tm o p =
  join_dee ((λ u, dee (rescale tl u)) <$> o) (dee (rescale tr (Unpack p))).
Proof.
  unfold merge_value, merged_value, join_dee. destruct o as [u|]; simpl; [|done].
  by rewrite Unpack_Pack.
Qed.

Lemma merge_value_dee_fresh tl tr tm o p :
  fresh tl o →
  dee <$> merge_value tl tr tm o p = join_dee (dee <$> o) (dee (rescale tr (Unpack p))).
Proof.
  intros Hfresh. rewrite merge_value_dee_first. f_equal.
  destruct o as [u|]; simpl; [|done]. by rewrite rescale_fresh by by apply Hfresh.
Qed.

Lemma merge_value_fresh tl tr tm t o p : (t ≤ tm)%N → fresh t (merge_value tl tr tm o p).
Proof. intros Ht u [= <-]. done. Qed.

Lemma fold_dee_fresh tl tr tm ps o :
  (tl ≤ tm)%N → fresh tl o →
  dee <$> fold_left (merge_value tl tr tm) ps o =
  fold_left join_dee ((λ p, dee (rescale tr (Unpack p))) <$> ps) (dee <$> o).
Proof.
  intros Htl. revert o. induction ps as [|p ps IH]; intros o Hfresh; simpl; [done|].
  rewrite IH by by apply merge_value_fresh.
  by rewrite merge_value_dee_fresh.
Qed.

Lemma fold_dee tl tr tm ps o :
  (tl ≤ tm)%N → ps ≠ [] →
  dee <$> fold_left (merge_value tl tr tm) ps o =
  fold_left join_dee ((λ p, dee (rescale tr (Unpack p))) <$> ps)
            ((λ u, dee (rescale tl u)) <$> o).
Proof.
  intros Htl Hps. destruct ps as [|p ps]; [done|]. simpl.
  rewrite fold_dee_fresh by (done || by apply merge_value_fresh).
  by rewrite merge_value_dee_first.
Qed.

Lemma fold_tick_stamped tl tr tm ps v :
  tick v = tm → tick <$> fold_left (merge_value tl tr tm) ps (Some v) = Some tm.
Proof.
  revert v. induction ps as [|q ps IH]; intros v Hv; simpl.
  - by rewrite Hv.
  - by apply IH.
Qed.

Lemma fold_tick tl tr tm ps o :
  ps ≠ [] → tick <$> fold_left (merge_value tl tr tm) ps o = Some tm.
Proof.
  intros Hps. destruct ps as [|p ps]; [done|]. simpl.
  by apply fold_tick_stamped.
Qed.

Lemma join_dee_comm o a b : join_dee (join_dee o a) b = join_dee (join_dee o b) a.
Proof.
  unfold join_dee. destruct o as [u|]; f_equal.
  - by rewrite !dee_max_assoc, (dee_max_comm b a).
  - apply dee_max_comm.
Qed.

End Commutativity.

Section CommutativityTheorem.
Context `{W : Weight} {WO : WeightOrder W} {C : Codec} {RT : CodecRoundTrip C}.
Context (fails : string → bool).

Lemma value_eq (o1 o2 : option UserDbValue) :
  commits <$> o1 = commits <$> o2 → dee <$> o1 = dee <$> o2 →
  tick <$> o1 = tick <$> o2 → o1 = o2.
Proof.
  destruct o1 as [[c1 d1 t1]|], o2 as [[c2 d2 t2]|]; simpl; intros; by simplify_eq.
Qed.

Lemma Restore_merge_tick_le throws uid (temp dest : UserDb) :
  (GetTickCount (Restore_merge fails throws uid temp dest).1
   ≤ N.max (GetTickCount dest) (GetTickCount temp))%N.
Proof.
  destruct (Restore_merge_meta fails throws uid temp dest) as [-> _].
  repeat case_match; lia.
Qed.

Lemma Restore_merge_tick_at throws uid (temp dest : UserDb) key :
  merged_key fails (Jump " " (Query temp)) key →
  tick_at (Restore_merge fails throws uid temp dest).1 key =
  Some (N.max (GetTickCount dest) (GetTickCount temp)).
Proof.
  intros Hkey. unfold tick_at. rewrite Restore_merge_value_at.
  apply fold_tick. intros Hnil. by apply contributions_nil_iff in Hnil.
Qed.

Lemma Restore_merge_fresh throws uid (temp dest : UserDb) key :
  merged_key fails (Jump " " (Query temp)) key →
  fresh (GetTickCount (Restore_merge fails throws uid temp dest).1)
        (value_at (Restore_merge fails throws uid temp dest).1 key).
Proof.
  intros Hkey u Hu.
  pose proof (Restore_merge_tick_at throws uid temp dest key Hkey) as Ht.
  unfold tick_at in Ht. rewrite Hu in Ht. simplify_eq/=. rewrite Ht.
  apply Restore_merge_tick_le.
Qed.

Lemma Restore_merge_dee_at throws uid (temp dest : UserDb) key :
  merged_key fails (Jump " " (Query temp)) key →
  dee_at (Restore_merge fails throws uid temp dest).1 key =
  fold_left join_dee (weights_for fails temp key)
            ((λ u, dee (rescale (GetTickCount dest) u)) <$> value_at dest key).
Proof.
  intros Hkey. unfold dee_at. rewrite Restore_merge_value_at.
  apply fold_dee; [lia|]. intros Hnil. by apply contributions_nil_iff in Hnil.
Qed.

Lemma Restore_merge_dee_at_fresh throws uid (temp dest : UserDb) key :
  fresh (GetTickCount dest) (value_at dest key) →
  dee_at (Restore_merge fails throws uid temp dest).1 key =
  fold_left join_dee (weights_for fails temp key) (dee_at dest key).
Proof.
  intros Hfresh. unfold dee_at. rewrite Restore_merge_value_at.
  apply fold_dee_fresh; [lia|done].
Qed.

Lemma Restore_merge_tick_updated throws uid (temp dest : UserDb) key :
  merged_key fails (Jump " " (Query temp)) key → throws "/tick" = false →
  GetTickCount (Restore_merge fails throws uid temp dest).1 =
  N.max (GetTickCount dest) (GetTickCount temp).
Proof.
  intros Hkey Hthrow.
  destruct (Restore_merge_meta fails throws uid temp dest) as [-> _].
  rewrite Restore_merge_count, Hthrow.
  rewrite decide_True; [done|]. by eapply entry_count_pos.
Qed.

End CommutativityTheorem.

Section EitherOrder.
Context `{W : Weight} {C : Codec} {RT : CodecRoundTrip C}.
Context (fails : string → bool).

(** C2, as the code has it.  Merging snapshot [A] and then [B] into a
    destination, or [B] and then [A]: every key ends with the same count in
    both orders; a key written from both snapshots ends, when the write of
    ["/tick"] does not throw, with the same stamp; and, where [<] orders the
    weights strictly and totally (no NaN, one zero), such a key ends with
    the same weight as well, so that the stored record is the same. *)
Theorem Restore_merge_either_order (throws : string → bool) (uid : string)
    (A B dest : UserDb) :
  let dAB := (Restore_merge fails throws uid B (Restore_merge fails throws uid A dest).1).1 in
  let dBA := (Restore_merge fails throws uid A (Restore_merge fails throws uid B dest).1).1 in
  (∀ key, commits_at dAB key = commits_at dBA key) ∧
  (∀ key, merged_key fails (Jump " " (Query A)) key →
          merged_key fails (Jump " " (Query B)) key →
          throws "/tick" = false → tick_at dAB key = tick_at dBA key) ∧
  (WeightOrder W →
   ∀ key, merged_key fails (Jump " " (Query A)) key →
          merged_key fails (Jump " " (Query B)) key →
          dee_at dAB key = dee_at dBA key ∧
          (throws "/tick" = false → records dAB !! key = records dBA !! key)).
Proof.
  cbv zeta.
  assert (∀ key,
    commits_at (Restore_merge fails throws uid B (Restore_merge fails throws uid A dest).1).1 key =
    commits_at (Restore_merge fails throws uid A (Restore_merge fails throws uid B dest).1).1 key)
    as Hcommits.
  { intros key. rewrite !Restore_merge_commits_at.
    apply fold_left_comm, join_commits_comm. }
  assert (∀ key, merged_key fails (Jump " " (Query A)) key →
                 merged_key fails (Jump " " (Query B)) key →
                 throws "/tick" = false →
    tick_at (Restore_merge fails throws uid B (Restore_merge fails throws uid A dest).1).1 key =
    tick_at (Restore_merge fails throws uid A (Restore_merge fails throws uid B dest).1).1 key)
    as Hticks.
  { intros key HA HB Hthrow. rewrite !Restore_merge_tick_at by done.
    rewrite !(Restore_merge_tick_updated fails throws uid _ dest key) by done.
    f_equal. lia. }
  split; [done|]. split; [done|].
  intros WO key HA HB.
  assert (dee_at (Restore_merge fails throws uid B (Restore_merge fails throws uid A dest).1).1 key =
          dee_at (Restore_merge fails throws uid A (Restore_merge fails throws uid B dest).1).1 key)
    as Hdee.
  { rewrite (Restore_merge_dee_at_fresh fails throws uid B
               (Restore_merge fails throws uid A dest).1)
      by by apply Restore_merge_fresh.
    rewrite (Restore_merge_dee_at_fresh fails throws uid A
               (Restore_merge fails throws uid B dest).1)
      by by apply Restore_merge_fresh.
    rewrite !Restore_merge_dee_at by done.
    apply fold_left_comm, join_dee_comm. }
  split; [done|]. intros Hthrow.
  rewrite !Restore_merge_packed by done. f_equal.
  apply value_eq; [apply (Hcommits key)|done|by apply Hticks].
Qed.

End EitherOrder.

(** * The properties on the sample installation *)

#[export] Instance ZWeightOrder : WeightOrder ZWeight.
Proof.
  split; simpl.
  - intros a. apply Z.ltb_irrefl.
  - intros a b c Hab%Z.ltb_lt Hbc%Z.ltb_lt. apply Z.ltb_lt. lia.
  - intros a b Hab%Z.ltb_ge Hba%Z.ltb_ge. lia.
Qed.

#[export] Instance ZRoundTrip : CodecRoundTrip ZCodec.
Proof. intros v. reflexivity. Qed.

Lemma luna_peer_scan :
  Jump " " (Query luna_peer) =
  [(entry_key "a" "x", mk_value 5 2 7); (String "b" (String tab "y"), mk_value 1 1 7)].
Proof. reflexivity. Qed.

Lemma luna_A_scan : Jump " " (Query luna_A) = [(entry_key "c" "z", mk_value 1 1 6)].
Proof. reflexivity. Qed.

Lemma luna_B'_scan : Jump " " (Query luna_B') = [(entry_key "c" "z", mk_value 4 3 7)].
Proof. reflexivity. Qed.

Lemma merged_key_luna_peer : merged_key never_fails (Jump " " (Query luna_peer)) (entry_key "a" "x").
Proof.
  exists (entry_key "a" "x", mk_value 5 2 7). split; [|reflexivity].
  rewrite luna_peer_scan. apply list_elem_of_here.
Defined.

(** A call that returned true, with the state it left. *)
Lemma returned_true {A : Type} (r : bool * A) : r.1 = true → r = (true, r.2).
Proof. destruct r as [b a]. simpl. by intros ->. Qed.

Lemma snd_pair {A B : Type} (a : A) (b : B) : (a, b).2 = b.
Proof. reflexivity. Qed.

Lemma returned_outcome {A : Type} (r : Outcome * A) (o : Outcome) : r.1 = o → r = (o, r.2).
Proof. destruct r as [b a]. simpl. by intros ->. Qed.


(** C2 on the sample: [luna_A] and [luna_B'] both have the entry "c z";
    either order leaves it with the same count and the same record. *)
Lemma Restore_merge_either_order_witness :
  let dAB := (Restore_merge never_fails nothing_throws "local" luna_B'
                (Restore_merge never_fails nothing_throws "local" luna_A luna).1).1 in
  let dBA := (Restore_merge never_fails nothing_throws "local" luna_A
                (Restore_merge never_fails nothing_throws "local" luna_B' luna).1).1 in
  commits_at dAB (entry_key "c" "z") = commits_at dBA (entry_key "c" "z") ∧
  records dAB !! entry_key "c" "z" = records dBA !! entry_key "c" "z".
Proof.
  cbv zeta.
  destruct (@Restore_merge_either_order ZWeight ZCodec ZRoundTrip
              never_fails nothing_throws "local" luna_A luna_B' luna)
    as (Hcommits & _ & Hboth).
  split; [apply Hcommits|].
  apply (Hboth ZWeightOrder); [| |reflexivity].
  - exists (entry_key "c" "z", mk_value 1 1 6). split; [|reflexivity].
    rewrite luna_A_scan. apply list_elem_of_here.
  - exists (entry_key "c" "z", mk_value 4 3 7). split; [|reflexivity].
    rewrite luna_B'_scan. apply list_elem_of_here.
Defined.

(** C2 as the specification states it fails: "c z" comes from [luna_A]
    alone; merged before [luna_B] it is stamped 6, merged after it 7. *)
Lemma order_independent_fails :
  ¬ order_independent never_fails nothing_throws "local" luna_A luna_B luna.
Proof.
  intros Hsame.
  assert (merged_key never_fails (Jump " " (Query luna_A)) (entry_key "c" "z")) as Hkey.
  { exists (entry_key "c" "z", mk_value 1 1 6). split; [|reflexivity].
    rewrite luna_A_scan. apply list_elem_of_here. }
  specialize (Hsame (entry_key "c" "z") (or_introl Hkey)).
  change (Some (mk_value 1 1 6) = Some (mk_value 1 1 7)) in Hsame.
  discriminate Hsame.
Qed.

(** The order on the weights is needed for the weights of C2.  With a
    weight that compares with nothing, [std::max(a, b)], which is
    [(a < b) ? b : a], keeps its first argument, the weight of the snapshot
    merged last: the entry "c z", in one snapshot with such a weight and in
    the other with the weight 1, ends with the weight 1 in one order and
    with the other weight in the other order. *)
Lemma weights_need_an_order :
  let A := nan_db "peerA" None in
  let B := nan_db "peerB" (Some 1%Z) in
  let dAB := (Restore_merge never_fails nothing_throws "local" B
                (Restore_merge never_fails nothing_throws "local" A nan_dest).1).1 in
  let dBA := (Restore_merge never_fails nothing_throws "local" A
                (Restore_merge never_fails nothing_throws "local" B nan_dest).1).1 in
  dee_at dAB (entry_key "c" "z") = Some (Some 1%Z) ∧
  dee_at dBA (entry_key "c" "z") = Some None.
Proof. split; reflexivity. Qed.

(** C3 on the sample: [luna_peer] restored into [luna] moves the clock of
    [luna] from 5 to 7. *)
Lemma Restore_advances_clock_witness :
  let env := sample_env false nothing_throws in
  Restore env peer_file (state_with luna_peer)
    = (true, (Restore env peer_file (state_with luna_peer)).2) ∧
  ∃ temp dest dest',
    import_to_temp env (state_with luna_peer) peer_file = Some temp ∧
    Open_dest env (state_with luna_peer) (GetDbName temp) = Some dest ∧
    dbs (Restore env peer_file (state_with luna_peer)).2 !! GetDbName temp = Some dest' ∧
    (0 < (Restore_merge (update_fails env (GetDbName temp)) (meta_update_throws env)
            (user_id env) temp dest).2 →
     GetTickCount dest' = N.max (GetTickCount dest) (GetTickCount temp)).
Proof.
  cbv zeta.
  assert (Restore (sample_env false nothing_throws) peer_file (state_with luna_peer)
          = (true, (Restore (sample_env false nothing_throws) peer_file
                      (state_with luna_peer)).2)) as Hrun.
  { apply returned_true. reflexivity. }
  split; [exact Hrun|].
  destruct (Restore_advances_clock _ _ _ _ Hrun)
    as (temp & dest & dest' & Himp & Hopen & Hdb & _ & Hclock & _).
  exists temp, dest, dest'.
  split; [exact Himp|]. split; [exact Hopen|]. split; [exact Hdb|].
  intros Hn. apply Hclock; [exact Hn|reflexivity].
Defined.

(** C3 as the specification states it fails: a snapshot with clock 7 and
    no record restores with success and leaves the clock of [luna] at 5. *)
Lemma clock_monotone_fails :
  ¬ clock_monotone (sample_env false nothing_throws) peer_file (state_with luna_empty).
Proof.
  intros Hmono.
  destruct (Hmono (Restore (sample_env false nothing_throws) peer_file
                     (state_with luna_empty)).2 luna_empty luna luna) as [Hclock _].
  - apply returned_true. reflexivity.
  - reflexivity.
  - reflexivity.
  - reflexivity.
  - simpl in Hclock. lia.
Qed.

(** C4 on the sample: "a x" has count 2 in [luna]; a line that gives it
    the count -1 leaves it at -1. *)
Lemma import_line_commits_witness :
  ∃ v, import_line never_fails (luna, 0) (text_line "x" "a" "-1") =
         (set_records (<[entry_key "a" "x" := Pack v]> (records luna)) luna, 1) ∧
       commits v = (-1)%Z.
Proof.
  destruct (import_line_commits never_fails luna 0 (text_line "x" "a" "-1") (entry_key "a" "x")
              (-1) (mk_value 2 10 3)) as (v & Hline & Hneg & _).
  - reflexivity.
  - reflexivity.
  - exists v. split; [exact Hline|]. apply Hneg. lia.
Defined.

(** C4 as the specification states it fails: a line that gives "a x" the
    count 0 leaves the stored count 2 where it was. *)
Lemma import_replaces_or_maxes_fails :
  ¬ import_replaces_or_maxes never_fails luna (text_line "x" "a" "0").
Proof.
  intros Hinv.
  destruct (Hinv (entry_key "a" "x") 0%Z (mk_value 2 10 3)) as [Hzero _].
  - reflexivity.
  - reflexivity.
  - specialize (Hzero ltac:(lia)).
    change (Some 2%Z = Some 0%Z) in Hzero. discriminate Hzero.
Qed.



(** C6 on the sample: the snapshot without records passes the checks and
    [Restore] returns true with no entry merged. *)
Lemma Restore_fails_exactly_witness :
  (Restore_merge never_fails nothing_throws "local" luna_empty luna).2 = 0 ∧
  (Restore (sample_env false nothing_throws) peer_file (state_with luna_empty)).1 = true.
Proof.
  split; [reflexivity|].
  destruct (Restore_fails_exactly (sample_env false nothing_throws) peer_file
              (state_with luna_empty)) as [_ Hpass].
  destruct (Hpass luna_empty luna) as [_ Hzero].
  - reflexivity.
  - reflexivity.
  - discriminate.
  - reflexivity.
  - apply Hzero. reflexivity.
Defined.

(** C7 on the sample: with two entries merged and no write throwing, the
    clock of [luna] becomes 7 and its owner the local identity. *)
Lemma Restore_merge_updates_metadata_witness :
  GetTickCount (Restore_merge never_fails nothing_throws "local" luna_peer luna).1 = 7%N ∧
  GetUserId (Restore_merge never_fails nothing_throws "local" luna_peer luna).1 = "local".
Proof.
  destruct (Restore_merge_updates_metadata never_fails nothing_throws "local" luna_peer luna)
    as [Hsome _].
  apply Hsome; [apply Nat.ltb_lt; reflexivity|reflexivity|reflexivity].
Defined.

(** C7 as the specification states it fails: two entries are merged, the
    write of ["/tick"] throws, and the clock of [luna] stays at 5. *)
Lemma metadata_follows_count_fails :
  ¬ metadata_follows_count never_fails tick_throws "local" luna_peer luna.
Proof.
  intros [Hsome _].
  destruct Hsome as [Hclock _]; [apply Nat.ltb_lt; reflexivity|].
  change (5%N = 7%N) in Hclock. discriminate Hclock.
Qed.

(** C10 on the sample: with the write of ["/tick"] throwing, [Restore]
    returns true, the clock of [luna] stays at 5 and "a x" is stamped 7. *)
Lemma Restore_swallows_metadata_failure_witness :
  let env := sample_env false tick_throws in
  ∃ s' dest',
    Restore env peer_file (state_with luna_peer) = (true, s') ∧
    dbs s' !! "luna" = Some dest' ∧
    GetTickCount dest' = 5%N ∧
    (∃ v, records dest' !! entry_key "a" "x" = Some (Pack v) ∧ tick v = 7%N) ∧
    (GetTickCount dest' < 7)%N.
Proof.
  cbv zeta.
  destruct (Restore_swallows_metadata_failure (sample_env false tick_throws) peer_file
              (state_with luna_peer) luna_peer luna)
    as (s' & dest' & Hrun & Hdb & _ & Hstamps & Hthrown & _).
  - reflexivity.
  - reflexivity.
  - discriminate.
  - reflexivity.
  - apply Nat.ltb_lt. reflexivity.
  - left. reflexivity.
  - destruct (Hthrown eq_refl) as (Hclock & _ & Hbelow).
    exists s', dest'. split; [exact Hrun|]. split; [exact Hdb|].
    split; [exact Hclock|]. split.
    + apply (Hstamps (entry_key "a" "x") (mk_value 5 2 7) (entry_key "a" "x")).
      * split; reflexivity.
      * reflexivity.
      * reflexivity.
    + apply Hbelow. reflexivity.
Defined.

(** C8 on the sample: the peer "bad" holds a file no store restores from,
    the peer "peer" a good snapshot; both are tried, [Backup] follows, and
    the call returns false.  And where no directory can be created, with
    the sync directory there and the directory of this installation
    missing from it: the snapshot of the peer is merged, and the exception
    of [Backup] leaves [Synchronize]. *)
Lemma Synchronize_merges_every_peer_witness :
  let env := sample_env false nothing_throws in
  let s := sample_state ["bad"; "peer"]
             [(luna_snapshot "bad", None); (peer_file, Some luna_peer)] in
  ((Synchronize env "luna" s).1 = Returns false ∧
   calls (Synchronize env "luna" s).2 =
     [CallRestore (luna_snapshot "bad"); CallRestore peer_file; CallBackup "luna"]) ∧
  (Synchronize (sample_env true nothing_throws) "luna" (state_with luna_peer)).1 = Throws.
Proof.
  cbv zeta. split.
  - destruct (Synchronize_merges_every_peer (sample_env false nothing_throws) "luna"
                (sample_state ["bad"; "peer"]
                   [(luna_snapshot "bad", None); (peer_file, Some luna_peer)]))
      as (_ & _ & Hroot).
    destruct (Hroot (sample_state ["bad"; "peer"]
                       [(luna_snapshot "bad", None); (peer_file, Some luna_peer)])
                    [path_join "/sync" "bad"; path_join "/sync" "peer"])
      as (Hrun & _ & Hcalls & _).
    + reflexivity.
    + reflexivity.
    + split.
      * rewrite Hrun. vm_compute. reflexivity.
      * rewrite Hrun, snd_pair, Hcalls. vm_compute. reflexivity.
  - destruct (Synchronize_merges_every_peer (sample_env true nothing_throws) "luna"
                (state_with luna_peer)) as (_ & _ & Hroot).
    destruct (Hroot (state_with luna_peer) [path_join "/sync" "peer"])
      as (_ & _ & _ & _ & Hthrows & _).
    + reflexivity.
    + reflexivity.
    + apply Hthrows. vm_compute. reflexivity.
Defined.

(** C8 as the specification states it fails: with no sync directory and
    none to be had, [Synchronize] returns false and calls nothing. *)
Lemma always_backs_up_fails :
  ¬ always_backs_up (sample_env true nothing_throws) "luna" bare_state.
Proof.
  intros [files Hrun]. cbv zeta in Hrun. destruct Hrun as [Hrun _].
  assert (calls (Synchronize (sample_env true nothing_throws) "luna" bare_state).2 = [])
    as Hnone by reflexivity.
  rewrite Hrun, Backup_calls in Hnone.
  by apply app_nil in Hnone as [_ ?].
Qed.

(** C9 on the sample: the one dictionary of the sample is synchronized
    and [SynchronizeAll] returns true. *)
Lemma SynchronizeAll_stops_at_first_failure_witness :
  let env := sample_env false nothing_throws in
  syncs_in_turn env ["luna"] bare_state (SynchronizeAll env bare_state).2.
Proof.
  cbv zeta.
  destruct (SynchronizeAll_stops_at_first_failure (sample_env false nothing_throws)
              bare_state) as (Hall & _ & _).
  apply (Hall (SynchronizeAll (sample_env false nothing_throws) bare_state).2).
  apply (returned_outcome (SynchronizeAll (sample_env false nothing_throws) bare_state)).
  reflexivity.
Defined.

(** * Further properties *)

(** ** Sanitized keys *)

(** X1.  What the key sanitizer of the merge scan returns is a well-formed
    key, and the sanitizer leaves a well-formed key as it is: a second pass
    changes nothing. *)
Theorem sanitize_key_fixed (key key' : string) :
  sanitize_key key = Some key' →
  well_formed_key key' ∧ sanitize_key key' = Some key'.
Proof.
  intros Hkey%sanitize_key_result. split; [done|].
  by apply sanitize_key_well_formed.
Qed.

(** ** What the merge takes from the snapshot and what it keeps *)

Section MergeCoverage.
Context `{W : Weight} {WO : WeightOrder W} {C : Codec} {RT : CodecRoundTrip C}.
Context (fails : string → bool).

(** X2.  The merge loses no entry of the snapshot.  Every record of the
    snapshot whose key is not below [" "] and has a tab past its first
    character ends up in the destination under its sanitized key, where
    the store takes the write: stamped with the larger clock, with a count
    and a weight at least its own (the weight as rescaled to the clock of
    the snapshot).  A key under which no such record is written keeps what
    the destination held. *)
Theorem Restore_merge_takes_every_entry (throws : string → bool) (uid : string)
    (temp dest : UserDb) :
  let dest' := (Restore_merge fails throws uid temp dest).1 in
  (∀ k p key,
     records temp !! k = Some p → String.ltb k " " = false →
     sanitize_key k = Some key → fails key = false →
     ∃ x, records dest' !! key = Some (Pack x) ∧
          tick x = N.max (GetTickCount dest) (GetTickCount temp) ∧
          (commits (Unpack p) ≤ commits x)%Z ∧
          dee_le (dee (rescale (GetTickCount temp) (Unpack p))) (dee x)) ∧
  (∀ key,
     (∀ k p, records temp !! k = Some p → String.ltb k " " = false →
             sanitize_key k = Some key → fails key = true) →
     records dest' !! key = records dest !! key).
Proof.
  cbv zeta. split.
  - intros k p key Hk Hlt Hkey Hf. rewrite Restore_merge_records.
    assert (GetTickCount dest ≤ N.max (GetTickCount dest) (GetTickCount temp))%N
      as Hle by lia.
    assert ((k, p) ∈ Jump " " (Query temp)) as Hin by by apply scan_elem_of.
    assert (written_key fails (k, p) = Some key) as Hw by by apply written_key_Some.
    exact (fold_merge_records_absorbs fails _ (GetTickCount temp) _ _ (records dest) Hle
             (k, p) (or_introl Hin) key Hw).
  - intros key Hno. rewrite Restore_merge_records.
    apply fold_merge_records_other.
    intros (k & p & [Hk Hlt] & Hs & Hf)%merged_key_scanned.
    rewrite (Hno k p Hk Hlt Hs) in Hf. done.
Qed.

Lemma fold_join_commits cs c :
  ∃ c', fold_left join_commits cs (Some c) = Some c' ∧ (c ≤ c')%Z ∧
        (c' = c ∨ c' ∈ cs).
Proof.
  revert c. induction cs as [|x cs IH]; intros c; simpl.
  - exists c. split; [done|]. split; [lia|by left].
  - destruct (IH (Z.max x c)) as (c' & Heq & Hle & Hin).
    exists c'. split; [exact Heq|]. split; [lia|].
    destruct Hin as [->|Hin]; [|right; by right].
    destruct (Z.max_spec x c) as [[_ ->]|[_ ->]]; [by left|right; by left].
Qed.

(** The records written under a key are records the scan reaches whose
    sanitized key it is. *)
Lemma contributions_scanned (temp : UserDb) key p :
  p ∈ contributions fails (Jump " " (Query temp)) key ↔
  ∃ k, scanned temp (k, p) ∧ sanitize_key k = Some key ∧ fails key = false.
Proof.
  unfold contributions. rewrite list_elem_of_omap. split.
  - intros ([k p'] & Hin%scan_elem_of & Hrec). simpl in Hrec.
    case_decide as Hkey; [|done]. simplify_eq.
    apply written_key_Some in Hkey as [Hs Hf]. by exists k.
  - intros (k & Hin%scan_elem_of & Hs & Hf). exists (k, p). split; [done|].
    simpl. rewrite decide_True; [done|]. by apply written_key_Some.
Qed.

(** X3.  The merge lowers no usage count.  A key the destination holds is
    still held after the merge, with a count that is at least the count it
    had, and that is either this old count or the count of a record the
    scan of the snapshot has for the key and the store took. *)
Theorem Restore_merge_never_lowers_a_count (throws : string → bool) (uid : string)
    (temp dest : UserDb) (key : string) (c : Z) :
  commits_at dest key = Some c →
  ∃ c', commits_at (Restore_merge fails throws uid temp dest).1 key = Some c' ∧
        (c ≤ c')%Z ∧
        (c' = c ∨
         ∃ k p, scanned temp (k, p) ∧ sanitize_key k = Some key ∧
                fails key = false ∧ c' = commits (Unpack p)).
Proof.
  intros Hc. rewrite Restore_merge_commits_at, Hc.
  destruct (fold_join_commits
              ((λ p, commits (Unpack p))
                 <$> contributions fails (Jump " " (Query temp)) key) c)
    as (c' & -> & Hle & Hin).
  exists c'. split; [done|]. split; [done|].
  destruct Hin as [->|Hin]; [by left|right].
  apply list_elem_of_fmap in Hin as (p & -> & Hp).
  apply contributions_scanned in Hp as (k & Hscan & Hs & Hf). by exists k, p.
Qed.

End MergeCoverage.

Section MergeKeys.
Context `{C : Codec} (fails : string → bool).

Lemma merge_records_well_formed tl tr tm m rec :
  (∀ key, is_Some (m !! key) → well_formed_key key) →
  ∀ key, is_Some (merge_records fails tl tr tm m rec !! key) → well_formed_key key.
Proof.
  intros Hm key. unfold merge_records.
  destruct (written_key fails rec) as [key'|] eqn:Hrec; [|by apply Hm].
  destruct (decide (key' = key)) as [<-|Hne].
  - intros _. apply written_key_Some in Hrec as [Hs _]. by eapply sanitize_key_result.
  - rewrite lookup_insert_ne by done. apply Hm.
Qed.

Lemma fold_merge_records_well_formed tl tr tm a m :
  (∀ key, is_Some (m !! key) → well_formed_key key) →
  ∀ key, is_Some (fold_left (merge_records fails tl tr tm) a m !! key) →
         well_formed_key key.
Proof.
  revert m. induction a as [|rec a IH]; intros m Hm; simpl; [done|].
  apply IH. by apply merge_records_well_formed.
Qed.

(** A key the destination holds after the scan was held before or was
    written by the scan. *)
Lemma fold_merge_records_dom tl tr tm a m key :
  is_Some (fold_left (merge_records fails tl tr tm) a m !! key) →
  is_Some (m !! key) ∨ merged_key fails a key.
Proof.
  revert m. induction a as [|rec a IH]; intros m; simpl; [by left|].
  intros [Hm|(rec' & Hin & Hrec')]%IH.
  - unfold merge_records in Hm.
    destruct (written_key fails rec) as [key'|] eqn:Hrec; [|by left].
    destruct (decide (key' = key)) as [<-|Hne].
    + right. exists rec. split; [by left|done].
    + left. by rewrite lookup_insert_ne in Hm.
  - right. exists rec'. split; [by right|done].
Qed.

(** X4.  The merge keeps the keys of the destination well formed: when
    every key the destination holds has a space right before its first tab,
    so has every key it holds after the merge, whatever keys the snapshot
    has. *)
Theorem Restore_merge_keys_well_formed (throws : string → bool) (uid : string)
    (temp dest : UserDb) :
  (∀ key, is_Some (records dest !! key) → well_formed_key key) →
  ∀ key, is_Some (records (Restore_merge fails throws uid temp dest).1 !! key) →
         well_formed_key key.
Proof.
  rewrite Restore_merge_records. apply fold_merge_records_well_formed.
Qed.

(** X5.  The number of entries the merge reports is the number of records
    of the snapshot that are entries (key not below [" "], a tab past its
    first character) and for whose sanitized key [dest.Update] returned
    true, each counted once also when two of them are written under the
    same key.  It is at most the number of entries of the snapshot, which
    is at most the number of its records, and it is the number of entries
    when no write fails. *)
Theorem Restore_merge_counts_entries (throws : string → bool) (uid : string)
    (temp dest : UserDb) :
  (Restore_merge fails throws uid temp dest).2 = length (written_entries fails temp) ∧
  (length (written_entries fails temp) ≤ length (snapshot_entries temp))%nat ∧
  (length (snapshot_entries temp) ≤ size (records temp))%nat ∧
  ((∀ key, fails key = false) →
   (Restore_merge fails throws uid temp dest).2 = length (snapshot_entries temp)).
Proof.
  rewrite Restore_merge_count, scan_entry_count.
  destruct (written_entries_le fails temp) as [Hle Hall].
  split; [done|]. split; [done|]. split.
  - unfold snapshot_entries. etrans; [apply length_filter|].
    by rewrite length_map_to_list.
  - intros Hnever. by rewrite Hall.
Qed.

End MergeKeys.

(** ** [Restore]: what it leaves alone *)

Section RestoreFrame.
Context `{C : Codec}.


End RestoreFrame.

(** ** [Import]: the keys it builds *)

Lemma string_find_cons_None_iff c y a :
  string_find c (String y a) = None ↔ Ascii.eqb y c = false ∧ string_find c a = None.
Proof.
  split; [apply string_find_cons_None|]. simpl. intros [-> ->]. done.
Qed.

Lemma string_find_app_None c a b :
  string_find c a = None → string_find c b = None → string_find c (a +:+ b) = None.
Proof.
  intros Ha Hb. induction a as [|y a IH]; string_cons; [done|].
  apply string_find_cons_None in Ha as [-> Ha]. by rewrite IH.
Qed.

(** No token of a split has the separator in it. *)
Lemma boost_split_no_sep c compress s :
  Forall (λ t, string_find c t = None) (boost_split (Ascii.eqb c) compress s).
Proof.
  induction s as [|a s IH]; simpl; [by repeat constructor|].
  destruct (Ascii.eqb c a) eqn:Hca.
  - destruct (compress && _); [done|]. by constructor.
  - destruct (boost_split (Ascii.eqb c) compress s) as [|t ts].
    + repeat constructor. simpl. by rewrite Ascii.eqb_sym, Hca.
    + apply Forall_cons in IH as [Ht Hts]. constructor; [|done].
      apply string_find_cons_None_iff. by rewrite Ascii.eqb_sym.
Qed.

(** A character a string does not have is in none of its tokens. *)
Lemma boost_split_absent c is_sep compress s :
  string_find c s = None →
  Forall (λ t, string_find c t = None) (boost_split is_sep compress s).
Proof.
  induction s as [|a s IH]; simpl; [by repeat constructor|].
  intros [Ha Hs]%string_find_cons_None_iff. specialize (IH Hs).
  destruct (is_sep a).
  - destruct (compress && _); [done|]. by constructor.
  - destruct (boost_split is_sep compress s) as [|t ts].
    + repeat constructor. by apply string_find_cons_None_iff.
    + apply Forall_cons in IH as [Ht Hts]. constructor; [|done].
      by apply string_find_cons_None_iff.
Qed.

Lemma trim_left_absent c s : string_find c s = None → string_find c (trim_left s) = None.
Proof.
  induction s as [|a s IH]; [done|].
  intros Has. pose proof Has as [Ha Hs]%string_find_cons_None_iff. simpl.
  destruct (is_space a); [by apply IH|done].
Qed.

Lemma trim_right_absent c s : string_find c s = None → string_find c (trim_right s) = None.
Proof.
  induction s as [|a s IH]; [done|].
  intros [Ha Hs]%string_find_cons_None_iff. specialize (IH Hs). simpl.
  destruct (trim_right s) as [|b t].
  - destruct (is_space a); [done|]. by apply string_find_cons_None_iff.
  - by apply string_find_cons_None_iff.
Qed.

Lemma concat_absent c sep l :
  string_find c sep = None → Forall (λ t, string_find c t = None) l →
  string_find c (String.concat sep l) = None.
Proof.
  intros Hsep. induction 1 as [|t l Ht Hl IH]; [done|].
  simpl. destruct l as [|t' l]; [done|].
  apply string_find_app_None; [done|]. by apply string_find_app_None.
Qed.

Section ImportKeys.
Context `{C : Codec}.

(** The key of a line is its code, a space, a tab and its text, and the
    code has no tab. *)
Lemma import_parse_key line key c :
  import_parse line = Some (key, c) →
  ∃ code text, key = code +:+ String space (String tab text) ∧
               string_find tab code = None.
Proof.
  unfold import_parse. intros Hparse.
  destruct line as [|a line]; [done|].
  destruct (boost_split (Ascii.eqb tab) false (String a line))
    as [|row0 [|row1 rest]] eqn:Hsplit; [by repeat case_match..|].
  assert (string_find tab row1 = None) as Hrow1.
  { pose proof (boost_split_no_sep tab false (String a line)) as Hall.
    rewrite Hsplit in Hall. by apply Forall_cons in Hall as [_ [? _]%Forall_cons]. }
  exists (if decide (boost_trim row1 = EmptyString) then boost_trim row1
          else String.concat " " (boost_split (Ascii.eqb space) true (boost_trim row1))),
         row0.
  split.
  - repeat case_match; simplify_eq; reflexivity.
  - apply trim_right_absent, trim_left_absent in Hrow1.
    fold (boost_trim row1) in Hrow1.
    clear Hparse. case_decide; [done|].
    apply concat_absent; [done|]. by apply boost_split_absent.
Qed.

(** X7.  Every key [Import] builds from a line is well formed: it has a
    space right before its first tab, so that the key sanitizer of the merge
    scan takes it as it is. *)
Theorem import_parse_key_well_formed (line key : string) (c : Z) :
  import_parse line = Some (key, c) →
  well_formed_key key ∧ sanitize_key key = Some key.
Proof.
  intros (code & text & -> & Hcode)%import_parse_key.
  assert (well_formed_key (code +:+ String space (String tab text))) as Hwf.
  { exists (String.length code). split.
    - by apply string_find_app_skip.
    - apply string_get_app_length. }
  split; [done|]. by apply sanitize_key_well_formed.
Qed.

End ImportKeys.

(** ** [Import]: what it returns and what it changes *)

Section ImportLoop.
Context `{C : Codec}.

Lemma set_commits_id (v : UserDbValue) : set_commits (commits v) v = v.
Proof. by destruct v. Qed.

Lemma imported_value_import_value (db : UserDb) key c :
  imported_value db key c = import_value (Fetch db key) c.
Proof.
  unfold imported_value, import_value, adjust_count.
  destruct (0 <? c)%Z; [done|]. destruct (c <? 0)%Z; [done|].
  by rewrite set_commits_id.
Qed.

Lemma fold_import_line fails lines (db : UserDb) (n : nat) :
  fold_left (import_line fails) lines (db, n) =
  (set_records (fold_left (import_records fails) lines (records db)) db,
   (n + length (omap (import_written fails) lines))%nat).
Proof.
  revert db n. induction lines as [|line lines IH]; intros db n.
  - simpl. by rewrite set_records_id, Nat.add_0_r.
  - cbn [fold_left].
    change (omap (import_written fails) (line :: lines))
      with (match import_written fails line with
            | Some y => y :: omap (import_written fails) lines
            | None => omap (import_written fails) lines
            end).
    unfold import_line at 2, import_records at 2, import_written at 1 2.
    destruct (import_parse line) as [[key c]|] eqn:Hline; [|by rewrite IH].
    unfold Update. destruct (fails key) eqn:Hf; [by rewrite IH|].
    rewrite IH. simpl. rewrite imported_value_import_value. unfold Fetch.
    f_equal. lia.
Qed.

Lemma length_omap_le {A B} (f : A → option B) (l : list A) :
  (length (omap f l) ≤ length l)%nat.
Proof.
  induction l as [|x l IH]; [done|]. unfold omap. simpl.
  fold (omap f l). destruct (f x); simpl; lia.
Qed.

(** The lines that are written are among the lines that stand for an
    entry, and are all of them when no write fails. *)
Lemma import_written_le fails lines :
  (length (omap (import_written fails) lines) ≤ length (omap import_parse lines))%nat ∧
  ((∀ key, fails key = false) →
   length (omap (import_written fails) lines) = length (omap import_parse lines)).
Proof.
  induction lines as [|line lines [IHle IHeq]]; [by split|].
  change (omap (import_written fails) (line :: lines))
    with (match import_written fails line with
          | Some y => y :: omap (import_written fails) lines
          | None => omap (import_written fails) lines
          end).
  change (omap import_parse (line :: lines))
    with (match import_parse line with
          | Some y => y :: omap import_parse lines
          | None => omap import_parse lines
          end).
  assert (import_written fails line =
          match import_parse line with
          | Some (key, c) => if fails key then None else Some (key, c)
          | None => None
          end) as Hw by done.
  destruct (import_parse line) as [[key c]|]; rewrite Hw; [|done].
  destruct (fails key) eqn:Hf; simpl.
  - split; [lia|]. intros Hnever. by rewrite Hnever in Hf.
  - split; [lia|]. intros Hnever. by rewrite IHeq.
Qed.

(** [Import], with the loop on the records spelled out. *)
Lemma Import_unfold env dict_name text_file s :
  Import env dict_name text_file s =
  match Open env s dict_name with
  | None => ((-1)%Z, s)
  | Some db =>
      if IsUserDb db then
        (Z.of_nat (length (omap (import_written (update_fails env dict_name))
                                (default [] (text_files s !! text_file)))),
         set_dbs (<[dict_name :=
                     set_records
                       (fold_left (import_records (update_fails env dict_name))
                                  (default [] (text_files s !! text_file))
                                  (records db)) db]> (dbs s)) s)
      else ((-1)%Z, set_dbs (<[dict_name := db]> (dbs s)) s)
  end.
Proof.
  unfold Import. destruct (Open env s dict_name) as [db|]; [|done].
  destruct (IsUserDb db); [|done]. simpl. by rewrite fold_import_line.
Qed.

(** X8.  [Import] returns -1 exactly when the store does not open or is
    not a user dictionary; otherwise it returns the number of lines of the
    file that stand for an entry and for whose key [db.Update] returned
    true.  This is at most the number of lines that stand for an entry,
    which is at most the number of lines, it is the number of lines that
    stand for an entry when no write fails, and it is 0 for a file that is
    not there.  [Import] touches no directory, no snapshot and no other
    store, and it leaves the name, the owner and the clock of the store it
    writes to as they were. *)
Theorem Import_counts_parsed_lines (env : Env) (dict_name text_file : string)
    (s : State) :
  let r := Import env dict_name text_file s in
  let lines := default [] (text_files s !! text_file) in
  let fails := update_fails env dict_name in
  (r.1 = (-1)%Z ↔
     Open env s dict_name = None ∨
     ∃ db, Open env s dict_name = Some db ∧ IsUserDb db = false) ∧
  (r.1 ≠ (-1)%Z →
     r.1 = Z.of_nat (length (omap (import_written fails) lines)) ∧
     (0 ≤ r.1 ≤ Z.of_nat (length (omap import_parse lines)))%Z ∧
     (length (omap import_parse lines) ≤ length lines)%nat ∧
     ((∀ key, fails key = false) →
      r.1 = Z.of_nat (length (omap import_parse lines)))) ∧
  (text_files s !! text_file = None → r.1 ≠ (-1)%Z → r.1 = 0%Z) ∧
  dirs r.2 = dirs s ∧ snapshot_files r.2 = snapshot_files s ∧
  text_files r.2 = text_files s ∧ calls r.2 = calls s ∧
  (∀ name, name ≠ dict_name → dbs r.2 !! name = dbs s !! name) ∧
  (∀ db, Open env s dict_name = Some db →
     ∃ db', dbs r.2 !! dict_name = Some db' ∧
            IsUserDb db' = IsUserDb db ∧ GetDbName db' = GetDbName db ∧
            GetUserId db' = GetUserId db ∧ GetTickCount db' = GetTickCount db).
Proof.
  cbv zeta. rewrite Import_unfold.
  pose proof (length_omap_le import_parse (default [] (text_files s !! text_file)))
    as Hlen.
  destruct (import_written_le (update_fails env dict_name)
              (default [] (text_files s !! text_file))) as [Hle Hall].
  destruct (Open env s dict_name) as [db|]; simpl.
  - destruct (IsUserDb db) eqn:Hud; simpl.
    + split; [|split; [|split; [|split; [|split; [|split; [|split; [|split]]]]]]];
        try done.
      * split; [lia|]. intros [?|(db' & ? & ?)]; [done|]. simplify_eq. congruence.
      * intros _. split; [done|]. split; [lia|]. split; [done|].
        intros Hnever. by rewrite Hall.
      * by intros ->.
      * intros name Hname. by rewrite lookup_insert_ne.
      * intros db' [= <-]. eexists. by rewrite lookup_insert_eq.
    + split; [|split; [|split; [|split; [|split; [|split; [|split; [|split]]]]]]];
        try done.
      * split; [|done]. intros _. right. by exists db.
      * intros name Hname. by rewrite lookup_insert_ne.
      * intros db' [= <-]. eexists. by rewrite lookup_insert_eq.
  - split; [|split; [|split; [|split; [|split; [|split; [|split; [|split]]]]]]];
      try done. split; [|done]. intros _. by left.
Qed.

End ImportLoop.

(** ** Importing the same file again *)

(** The counts of a file, applied in order to a count, either leave it,
    raise it to a floor, or replace it: applied twice they give what they
    give once. *)
Lemma fold_adjust_count_shape cs :
  (∀ x, fold_left (λ x c, adjust_count c x) cs x = x) ∨
  (∃ a, ∀ x, fold_left (λ x c, adjust_count c x) cs x = Z.max a x) ∨
  (∃ k, ∀ x, fold_left (λ x c, adjust_count c x) cs x = k).
Proof.
  induction cs as [|c cs IH] using rev_ind; [by left|].
  assert (∀ x, fold_left (λ x c, adjust_count c x) (cs ++ [c]) x =
               adjust_count c (fold_left (λ x c, adjust_count c x) cs x)) as Hsnoc.
  { intros x. by rewrite fold_left_app. }
  unfold adjust_count in Hsnoc.
  destruct (Z.ltb_spec 0 c) as [Hpos|Hle].
  - destruct IH as [Hid|[[a Hmax]|[k Hconst]]].
    + right. left. exists c. intros x. by rewrite Hsnoc, Hid.
    + right. left. exists (Z.max c a). intros x. rewrite Hsnoc, Hmax. lia.
    + right. right. exists (Z.max c k). intros x. by rewrite Hsnoc, Hconst.
  - destruct (Z.ltb_spec c 0) as [Hneg|Hzero].
    + right. right. exists c. intros x. by rewrite Hsnoc.
    + destruct IH as [Hid|[[a Hmax]|[k Hconst]]].
      * left. intros x. by rewrite Hsnoc, Hid.
      * right. left. exists a. intros x. by rewrite Hsnoc, Hmax.
      * right. right. exists k. intros x. by rewrite Hsnoc, Hconst.
Qed.

Lemma fold_adjust_count_idem cs x :
  fold_left (λ x c, adjust_count c x) cs (fold_left (λ x c, adjust_count c x) cs x) =
  fold_left (λ x c, adjust_count c x) cs x.
Proof.
  destruct (fold_adjust_count_shape cs) as [Hid|[[a Hmax]|[k Hconst]]].
  - by rewrite !Hid.
  - rewrite !Hmax. lia.
  - by rewrite !Hconst.
Qed.

Section ImportTwice.
Context `{W : Weight} {C : Codec} {RT : CodecRoundTrip C}.

Lemma fold_import_records_lookup fails lines (m : gmap string packed) key :
  fold_left (import_records fails) lines m !! key =
  fold_left (λ o c, Some (Pack (import_value o c))) (line_counts fails lines key)
            (m !! key).
Proof.
  revert m. induction lines as [|line lines IH]; intros m; simpl; [done|].
  rewrite IH. unfold line_counts at 2, omap. simpl.
  fold (omap (λ line, match import_written fails line with
                      | Some (k, c) => if decide (k = key) then Some c else None
                      | None => None
                      end) lines).
  fold (line_counts fails lines key).
  unfold import_records. destruct (import_written fails line) as [[k c]|]; [|done].
  case_decide as Hk.
  - subst. simpl. by rewrite lookup_insert_eq.
  - by rewrite lookup_insert_ne.
Qed.

Lemma fold_import_value cs (v : UserDbValue) :
  fold_left (λ o c, Some (Pack (import_value o c))) cs (Some (Pack v)) =
  Some (Pack (set_commits (fold_left (λ x c, adjust_count c x) cs (commits v)) v)).
Proof.
  revert v. induction cs as [|c cs IH]; intros v; simpl.
  - by rewrite set_commits_id.
  - unfold import_value at 2. rewrite Unpack_Pack, IH. done.
Qed.

Lemma fold_import_value_idem cs (o : option packed) :
  fold_left (λ o c, Some (Pack (import_value o c))) cs
    (fold_left (λ o c, Some (Pack (import_value o c))) cs o) =
  fold_left (λ o c, Some (Pack (import_value o c))) cs o.
Proof.
  destruct cs as [|c cs]; [done|].
  set (y := commits (match o with
                     | Some value => Unpack value
                     | None => UserDbValue_default
                     end)).
  set (F := fold_left (λ x c, adjust_count c x) (c :: cs)).
  assert (fold_left (λ o c, Some (Pack (import_value o c))) (c :: cs) o =
          Some (Pack (set_commits (F y) (import_value o c)))) as ->.
  { simpl. by rewrite fold_import_value. }
  rewrite fold_import_value. do 2 f_equal.
  change (commits (set_commits (F y) (import_value o c))) with (F y).
  fold F. unfold F at 1. by rewrite fold_adjust_count_idem.
Qed.

Lemma fold_import_records_idem fails lines (m : gmap string packed) :
  fold_left (import_records fails) lines (fold_left (import_records fails) lines m) =
  fold_left (import_records fails) lines m.
Proof.
  apply map_eq. intros key.
  rewrite (fold_import_records_lookup fails lines
             (fold_left (import_records fails) lines m)).
  rewrite fold_import_records_lookup. apply fold_import_value_idem.
Qed.

(** X9.  Importing the same text file a second time changes nothing:
    [Import] returns what it returned, and every store is what the first
    call left. *)
Theorem Import_twice :
  ∀ (env : Env) (dict_name text_file : string) (s : State),
    let once := Import env dict_name text_file s in
    let twice := Import env dict_name text_file once.2 in
    twice.1 = once.1 ∧ twice.2 = once.2.
Proof.
  intros env dict_name text_file s. cbv zeta.
  rewrite (Import_unfold env dict_name text_file s).
  unfold Open. destruct (open_fails env dict_name) eqn:Hfail.
  - simpl. rewrite Import_unfold. unfold Open. by rewrite Hfail.
  - set (db := default (fresh_db env dict_name) (dbs s !! dict_name)).
    destruct (IsUserDb db) eqn:Hud; simpl.
    + rewrite Import_unfold. unfold Open. rewrite Hfail. simpl.
      rewrite lookup_insert_eq. simpl.
      change (meta_is_user_db db) with (IsUserDb db). rewrite Hud.
      simpl. split; [done|]. unfold set_dbs. simpl. f_equal.
      rewrite insert_insert_eq. f_equal.
      rewrite set_records_set_records. f_equal.
      apply fold_import_records_idem.
    + rewrite Import_unfold. unfold Open. rewrite Hfail. simpl.
      rewrite lookup_insert_eq. simpl. rewrite Hud. simpl.
      split; [done|]. unfold set_dbs. simpl. f_equal.
      by rewrite insert_insert_eq.
Qed.

End ImportTwice.

(** ** [Backup]: what it publishes *)

Section BackupFacts.
Context `{C : Codec}.


(** The store can be exported exactly when it opens read-only and either
    is owned by the local identity already or is closed, opened for writing
    and given the metadata of a fresh store, each of the three with
    success. *)
Lemma backup_source_is_Some env s dict_name :
  is_Some (backup_source env s dict_name) ↔
  ∃ db, OpenReadOnly env s dict_name = Some db ∧
        (GetUserId db = user_id env ∨
         close_fails env dict_name = false ∧ open_fails env dict_name = false ∧
         create_metadata_fails env dict_name = false).
Proof.
  unfold backup_source, CreateMetadata.
  destruct (OpenReadOnly env s dict_name) as [db|].
  - case_decide as Howner.
    + split; [intros _; exists db; by auto|by eexists].
    + destruct (close_fails env dict_name), (open_fails env dict_name),
        (create_metadata_fails env dict_name);
        (split; [intros [? ?]|intros (db' & [= <-] & [?|(? & ? & ?)])]);
        try done; try (by eexists); exists db; by auto.
  - split; [by intros [? ?]|by intros (? & ? & _)].
Qed.

(** X11.  How a [Backup] ends.  It returns true exactly when the store
    can be exported, the sync directory of this installation is there or
    can be created, and the export to the snapshot file goes through.  The
    store can be exported when it opens read-only and either is owned by the
    local identity or is closed, opened for writing and given new metadata,
    none of the three failing.  [Backup] is left by the exception of
    [create_directories] exactly when the store can be exported and the
    sync directory is missing and cannot be created; in every other case it
    returns false.  Unless it returns true no snapshot file has been written
    or changed.  However it ends, every store keeps its records and its
    clock, and the text files are left alone. *)
Theorem Backup_fails_cleanly (env : Env) (dict_name : string) (s : State) :
  let r := Backup env dict_name s in
  (r.1 = Returns true ↔
     is_Some (backup_source env s dict_name) ∧
     backup_dir_available env s ∧
     backup_fails env (own_snapshot env dict_name) = false) ∧
  (r.1 = Throws ↔
     is_Some (backup_source env s dict_name) ∧
     fs_exists s (user_data_sync_dir env) = false ∧
     create_directories_fails env (user_data_sync_dir env) = true) ∧
  (is_Some (backup_source env s dict_name) ↔
     ∃ db, OpenReadOnly env s dict_name = Some db ∧
           (GetUserId db = user_id env ∨
            close_fails env dict_name = false ∧ open_fails env dict_name = false ∧
            create_metadata_fails env dict_name = false)) ∧
  (r.1 ≠ Returns true → snapshot_files r.2 = snapshot_files s) ∧
  (∀ name, records <$> dbs r.2 !! name = records <$> dbs s !! name) ∧
  (∀ name, GetTickCount <$> dbs r.2 !! name = GetTickCount <$> dbs s !! name) ∧
  text_files r.2 = text_files s.
Proof.
  cbv zeta. split; [|split; [apply Backup_throws|split; [apply backup_source_is_Some|]]].
  - rewrite Backup_unfold. cbv zeta. unfold backup_dir_available.
    destruct (backup_source env s dict_name) as [db'|].
    + destruct (fs_exists s (user_data_sync_dir env)),
        (create_directories_fails env (user_data_sync_dir env)),
        (backup_fails env (own_snapshot env dict_name)); simpl;
        (split; [intros ?|intros (_ & [?|?] & ?)]); try done; by eauto.
    + simpl. split; [done|]. by intros [[] _].
  - rewrite Backup_unfold. cbv zeta.
    destruct (backup_source env s dict_name) as [db'|] eqn:Hsrc; [|done].
    destruct (backup_source_inv env s dict_name db' Hsrc)
      as (db & Hdb & Hrec & Htick & _).
    assert (∀ name, records <$> <[dict_name := db']> (dbs s) !! name =
                    records <$> dbs s !! name) as Hrecs.
    { intros name. destruct (decide (dict_name = name)) as [<-|Hne].
      - by rewrite lookup_insert_eq, Hdb; simpl; rewrite Hrec.
      - by rewrite lookup_insert_ne. }
    assert (∀ name, GetTickCount <$> <[dict_name := db']> (dbs s) !! name =
                    GetTickCount <$> dbs s !! name) as Hticks.
    { intros name. destruct (decide (dict_name = name)) as [<-|Hne].
      - by rewrite lookup_insert_eq, Hdb; simpl; rewrite Htick.
      - by rewrite lookup_insert_ne. }
    unfold fs_create_directories.
    destruct (fs_exists s (user_data_sync_dir env)),
      (create_directories_fails env (user_data_sync_dir env)),
      (backup_fails env (own_snapshot env dict_name)); simpl;
      (split; [|split; [|split]]); done.
Qed.

End BackupFacts.

(** ** [Synchronize]: from the peers to the published snapshot *)

Section SynchronizeRuns.
Context `{C : Codec}.

Lemma sync_root_frame env s s1 :
  sync_root env s = Some s1 →
  dbs s1 = dbs s ∧ snapshot_files s1 = snapshot_files s.
Proof.
  unfold sync_root, fs_create_directories.
  repeat (case_match; simplify_eq/=); by intros [= <-].
Qed.

(** A [Synchronize] that returned true: every merge and the backup
    returned true. *)
Lemma Synchronize_true_inv env dict_name s s' :
  Synchronize env dict_name s = (Returns true, s') →
  ∃ s1 entries,
    sync_root env s = Some s1 ∧
    fs_directory_iterator s1 (sync_dir env) = Some entries ∧
    forallb id (run_restores env (peer_snapshots env dict_name s1 entries) s1).1 = true ∧
    Backup env dict_name (run_restores env (peer_snapshots env dict_name s1 entries) s1).2
      = (Returns true, s').
Proof.
  rewrite Synchronize_unfold.
  destruct (sync_root env s) as [s1|] eqn:Hroot; [|done].
  destruct (fs_directory_iterator s1 (sync_dir env)) as [entries|] eqn:Hit; [|done].
  cbv zeta. intros [= Hok Hs'].
  destruct (Backup env dict_name
              (run_restores env (peer_snapshots env dict_name s1 entries) s1).2)
    as [[ok|] s2] eqn:Hb; simpl in *; [|done].
  injection Hok as Hok. apply andb_true_iff in Hok as [Hall ->].
  exists s1, entries. do 3 (split; [done|]). by subst.
Qed.

(** X12.  A [Synchronize] that returns true has published the dictionary
    as the merges left it: the snapshot file of the dictionary in the sync
    directory of this installation holds the local store as it is when the
    call returns, and that store is owned by the local identity. *)
Theorem Synchronize_publishes_local_store (env : Env) (dict_name : string)
    (s s' : State) :
  Synchronize env dict_name s = (Returns true, s') →
  ∃ db, dbs s' !! dict_name = Some db ∧
        snapshot_files s' !! own_snapshot env dict_name = Some (Some db) ∧
        GetUserId db = user_id env.
Proof.
  intros (s1 & entries & _ & _ & _ & Hbackup)%Synchronize_true_inv.
  apply Backup_true_inv in Hbackup as (db' & Hsrc & -> & -> & _).
  apply backup_source_inv in Hsrc as (_ & _ & _ & _ & Howner & _).
  exists db'. by rewrite !lookup_insert_eq.
Qed.

End SynchronizeRuns.

Section SynchronizeAbsorbs.
Context `{W : Weight} {C : Codec} {RT : CodecRoundTrip C}.

Lemma fold_join_commits_in cs o c :
  c ∈ cs → ∃ c', fold_left join_commits cs o = Some c' ∧ (c ≤ c')%Z.
Proof.
  revert o. induction cs as [|x cs IH]; intros o Hin; [by apply elem_of_nil in Hin|].
  simpl. apply elem_of_cons in Hin as [->|Hin]; [|by apply IH].
  destruct (fold_join_commits cs (match o with Some u => Z.max x u | None => x end))
    as (c' & Heq & Hle & _).
  exists c'. split; [exact Heq|]. destruct o; lia.
Qed.

(** After the merge the destination holds every entry of the snapshot that
    it took, with a count at least the entry's. *)
Lemma Restore_merge_commits_ge fails throws uid (temp dest : UserDb) k p key :
  scanned temp (k, p) → sanitize_key k = Some key → fails key = false →
  ∃ c', commits_at (Restore_merge fails throws uid temp dest).1 key = Some c' ∧
        (commits (Unpack p) ≤ c')%Z.
Proof.
  intros Hscan Hkey Hf. rewrite Restore_merge_commits_at.
  apply fold_join_commits_in. apply list_elem_of_fmap. exists p. split; [done|].
  apply contributions_scanned. by exists k.
Qed.







End SynchronizeAbsorbs.

(** ** A dictionary against its own snapshot *)

Section OwnSnapshot.
Context `{W : Weight} {C : Codec} {RT : CodecRoundTrip C}.

Lemma fold_join_commits_const cs c :
  (∀ x, x ∈ cs → x = c) → fold_left join_commits cs (Some c) = Some c.
Proof.
  induction cs as [|x cs IH]; intros Hall; [done|].
  change (fold_left join_commits cs (Some (Z.max x c)) = Some c).
  rewrite (Hall x) by by left. rewrite Z.max_id. apply IH.
  intros y Hy. apply Hall. by right.
Qed.

Lemma own_contributions fails (temp dest : UserDb) key p :
  records temp = records dest → keys_sanitized dest →
  p ∈ contributions fails (Jump " " (Query temp)) key → records dest !! key = Some p.
Proof.
  intros Hrec Hkeys (k & [Hk _] & Hkey & _)%contributions_scanned.
  simpl in Hk. rewrite Hrec in Hk. by rewrite <- (Hkeys k key) in Hk by done.
Qed.

(** Merging a snapshot that has the records of the destination changes no
    count, when the keys of the destination are sanitized. *)
Lemma Restore_merge_own_counts fails throws uid (temp dest : UserDb) key :
  records temp = records dest → keys_sanitized dest →
  commits_at (Restore_merge fails throws uid temp dest).1 key = commits_at dest key.
Proof.
  intros Hrec Hkeys. rewrite Restore_merge_commits_at.
  pose proof (own_contributions fails temp dest key) as Hown.
  destruct (contributions fails (Jump " " (Query temp)) key) as [|p ps] eqn:Hps; [done|].
  assert (records dest !! key = Some p) as Hp by (apply Hown; [done..|by left]).
  assert (commits_at dest key = Some (commits (Unpack p))) as ->.
  { unfold commits_at, value_at. by rewrite Hp. }
  apply fold_join_commits_const. intros x Hx.
  apply list_elem_of_fmap in Hx as (q & -> & Hq).
  specialize (Hown q Hrec Hkeys Hq). congruence.
Qed.

(** X14.  Publishing a dictionary and merging the published snapshot back
    changes no usage count.  For a dictionary named in its own metadata
    whose keys are sanitized: after a [Backup] that returned true, the
    [Restore] of the snapshot file it wrote, whatever it returns, leaves
    the dictionary in place with every key at the count it had. *)
Theorem Backup_then_Restore_keeps_counts :
  ∀ (env : Env) (dict_name : string) (s s1 : State) (db : UserDb),
    dict_name ≠ temp_name →
    dbs s !! dict_name = Some db → GetDbName db = dict_name → keys_sanitized db →
    Backup env dict_name s = (Returns true, s1) →
    ∃ db2, dbs (Restore env (own_snapshot env dict_name) s1).2 !! dict_name = Some db2 ∧
           ∀ key, commits_at db2 key = commits_at db key.
Proof.
  intros env dict_name s s1 db Htemp Hdb Hname Hkeys
    (db' & Hsrc & Hdbs & Hfiles & _)%Backup_true_inv.
  assert (records db' = records db ∧ GetDbName db' = dict_name ∧ IsUserDb db' = IsUserDb db'
          ∧ dbs s1 !! dict_name = Some db') as (Hrec & Hname' & _ & Hdb').
  { split; [|split; [|split; [done|by rewrite Hdbs, lookup_insert_eq]]].
    - apply backup_source_inv in Hsrc as (db0 & Hdb0 & Hrec & _). congruence.
    - unfold backup_source, OpenReadOnly, CreateMetadata in Hsrc.
      rewrite Hdb in Hsrc. by repeat case_match; simplify_eq/=. }
  assert (∀ key, commits_at db' key = commits_at db key) as Hsame.
  { intros key. unfold commits_at, value_at. by rewrite Hrec. }
  rewrite Restore_unfold.
  assert (dbs (Restore_entry (own_snapshot env dict_name) s1) !! dict_name = Some db')
    as Hentry.
  { simpl. by rewrite lookup_delete_ne. }
  assert (import_to_temp env s1 (own_snapshot env dict_name) =
          if open_fails env temp_name then None else Some db') as ->.
  { unfold import_to_temp. by rewrite Hfiles, lookup_insert_eq. }
  destruct (open_fails env temp_name); [by exists db'|].
  destruct (negb (IsUserDb db')); [by exists db'|].
  case_decide; [by exists db'|].
  destruct (Open_dest env s1 (GetDbName db')) as [dest|] eqn:Hdest; [|by exists db'].
  assert (dest = db') as ->.
  { unfold Open_dest, Open in Hdest. rewrite Hname' in Hdest.
    rewrite decide_False in Hdest by done.
    destruct (open_fails env dict_name); [done|]. rewrite Hdb' in Hdest.
    by simplify_eq/=. }
  eexists. simpl. rewrite Hname', lookup_insert_eq. split; [done|].
  intros key. rewrite Restore_merge_own_counts; [done..|].
  intros k key' Hk. apply Hkeys. by rewrite <- Hrec.
Qed.

End OwnSnapshot.

(** ** [SynchronizeAll]: what a run leaves published *)

Section SynchronizeAllPublishes.
Context `{C : Codec}.

Lemma run_restores_files env files s :
  snapshot_files (run_restores env files s).2 = snapshot_files s.
Proof.
  revert s. induction files as [|file files IH]; intros s; simpl; [done|].
  destruct (Restore_frame env file s) as (_ & Hf & _).
  destruct (Restore env file s) as [ok s1]. specialize (IH s1).
  destruct (run_restores env files s1) as [oks s2]. simpl in *. congruence.
Qed.

(** A [Synchronize] that returned true has published its dictionary and
    has left what was published before published. *)
Lemma Synchronize_published env dict_name s s' :
  Synchronize env dict_name s = (Returns true, s') →
  published env s' (own_snapshot env dict_name) ∧
  ∀ file, published env s file → published env s' file.
Proof.
  intros (s1 & entries & Hroot & _ & _ & Hbackup)%Synchronize_true_inv.
  apply Backup_true_inv in Hbackup as (db' & Hsrc & _ & Hfiles & _).
  apply backup_source_inv in Hsrc as (_ & _ & _ & _ & Howner & _).
  rewrite run_restores_files in Hfiles.
  destruct (sync_root_frame env s s1 Hroot) as [_ Hroot_files].
  rewrite Hroot_files in Hfiles.
  assert (published env s' (own_snapshot env dict_name)) as Hown.
  { exists db'. by rewrite Hfiles, lookup_insert_eq. }
  split; [done|]. intros file (db & Hfile & Hdb).
  destruct (decide (file = own_snapshot env dict_name)) as [->|Hne]; [done|].
  exists db. by rewrite Hfiles, lookup_insert_ne.
Qed.

Lemma syncs_in_turn_published env user_dicts s s' :
  syncs_in_turn env user_dicts s s' →
  (∀ file, published env s file → published env s' file) ∧
  (∀ name, name ∈ user_dicts → published env s' (own_snapshot env name)).
Proof.
  induction 1 as [s|dict_name rest s s1 s2 Hsync Hrest [IHkeep IHall]].
  - split; [done|]. intros name Hin. by apply elem_of_nil in Hin.
  - destruct (Synchronize_published env dict_name s s1 Hsync) as [Hown Hkeep].
    split; [by auto|].
    intros name [->|Hin]%elem_of_cons; by auto.
Qed.

(** X15.  A [SynchronizeAll] that returns true has published every
    dictionary it listed: for each, the snapshot file of the dictionary in
    the sync directory of this installation holds a store owned by the
    local identity when the call returns. *)
Theorem SynchronizeAll_publishes_every_store (env : Env) (s s' : State) :
  SynchronizeAll env s = (Returns true, s') →
  ∀ name, name ∈ GetUserDictList env s → published env s' (own_snapshot env name).
Proof.
  unfold SynchronizeAll. intros Hall%synchronize_each_true.
  exact (proj2 (syncs_in_turn_published _ _ _ _ Hall)).
Qed.

End SynchronizeAllPublishes.

(** ** [GetUserDictList]: the stores it lists *)

Lemma list_ascii_of_string_app a b :
  list_ascii_of_string (a +:+ b) = (list_ascii_of_string a ++ list_ascii_of_string b)%list.
Proof. induction a as [|y a IH]; string_cons; [done|]. by rewrite IH. Qed.

Lemma string_of_list_ascii_app l1 l2 :
  string_of_list_ascii (l1 ++ l2) = string_of_list_ascii l1 +:+ string_of_list_ascii l2.
Proof. induction l1 as [|y l1 IH]; simpl; string_cons; [done|]. by rewrite IH. Qed.

Lemma string_rev_app a b : string_rev (a +:+ b) = string_rev b +:+ string_rev a.
Proof.
  unfold string_rev.
  by rewrite list_ascii_of_string_app, rev_app_distr, string_of_list_ascii_app.
Qed.

Lemma string_rev_involutive s : string_rev (string_rev s) = s.
Proof.
  unfold string_rev.
  by rewrite list_ascii_of_string_of_list_ascii, rev_involutive,
    string_of_list_ascii_of_string.
Qed.

Lemma string_prefix_app a b : String.prefix a (a +:+ b) = true.
Proof.
  induction a as [|y a IH]; string_cons; [by destruct b|].
  destruct (ascii_dec y y); [done|congruence].
Qed.

Lemma substring_all s : String.substring 0 (String.length s) s = s.
Proof. induction s as [|y s IH]; simpl; [done|]. by rewrite IH. Qed.

Lemma substring_app a b :
  String.substring (String.length a) (String.length b) (a +:+ b) = b.
Proof. induction a as [|y a IH]; string_cons; [apply substring_all|done]. Qed.

Lemma erase_first_app a b : erase_first (a +:+ b) a = b.
Proof.
  destruct (a +:+ b) as [|y s] eqn:Hs.
  - destruct a; [|done]. by destruct b.
  - change (erase_first (String y s) a)
      with (if String.prefix a (String y s)
            then String.substring (String.length a)
                   (String.length (String y s) - String.length a) (String y s)
            else String y (erase_first s a)).
    rewrite <- Hs, string_prefix_app, string_length_app.
    replace (String.length a + String.length b - String.length a)%nat
      with (String.length b) by lia.
    apply substring_app.
Qed.

(** A file name made of a name and the extension ends with the extension,
    and erasing the last occurrence of the extension gives the name back,
    also when the name has the extension inside it. *)
Lemma ends_with_app name ext : ends_with (name +:+ ext) ext = true.
Proof. unfold ends_with. rewrite string_rev_app. apply string_prefix_app. Qed.

Lemma erase_last_app name ext : erase_last (name +:+ ext) ext = name.
Proof.
  unfold erase_last. by rewrite string_rev_app, erase_first_app, string_rev_involutive.
Qed.

Section Listing.
Context `{C : Codec}.

(** X16.  [GetUserDictList] finds every store: when the user data
    directory is there, the name of each store in it is in the list, read
    back from its file name also when the name contains the extension.
    When the directory is missing the list is empty, and [SynchronizeAll]
    then returns true without touching anything. *)
Theorem GetUserDictList_lists_every_store (env : Env) (s : State) :
  (fs_is_directory s (user_data_dir env) = true →
   ∀ name, is_Some (dbs s !! name) → name ∈ GetUserDictList env s) ∧
  (fs_is_directory s (user_data_dir env) = false →
   GetUserDictList env s = [] ∧ SynchronizeAll env s = (Returns true, s)).
Proof.
  unfold SynchronizeAll, GetUserDictList. split; intros ->; [|done].
  intros name [db Hdb]. apply list_elem_of_omap.
  exists (name +:+ extension env). split.
  - unfold user_data_file_names. apply elem_of_app. left.
    apply list_elem_of_fmap. exists name. split; [done|].
    apply list_elem_of_fmap. exists (name, db). split; [done|].
    by apply elem_of_map_to_list.
  - by rewrite ends_with_app, erase_last_app.
Qed.

End Listing.

(** ** [UpgradeUserDict] *)

Section UpgradeFacts.
Context `{C : Codec}.

(** The upgrade of a store that opens, is a user dictionary and was
    written before 0.9.7, step by step. *)
Lemma UpgradeUserDict_old env uenv dict_name s db :
  OpenReadOnly env s dict_name = Some db → IsUserDb db = true →
  needs_upgrade uenv db →
  UpgradeUserDict env uenv dict_name s =
  match upgrade_trash env s with
  | None => (false, s)
  | Some s1 =>
      if backup_fails env (upgrade_snapshot env uenv dict_name) then (false, s1) else
      let s2 := set_snapshot_files
                  (<[upgrade_snapshot env uenv dict_name := Some db]> (snapshot_files s)) s1 in
      if close_fails env dict_name then (false, s2) else
      if remove_fails uenv dict_name then (false, s2) else
      Restore env (upgrade_snapshot env uenv dict_name)
              (set_dbs (delete dict_name (dbs s)) s2)
  end.
Proof.
  intros Hopen Hud Hold. unfold UpgradeUserDict, upgrade_trash, upgrade_snapshot.
  rewrite Hopen, Hud. simpl negb. cbv iota.
  unfold needs_upgrade in Hold. apply Z.ltb_lt in Hold. rewrite Hold. cbv zeta.
  destruct (fs_exists s (path_join (user_data_dir env) "trash")); simpl.
  - done.
  - unfold fs_create_directories.
    by destruct (create_directories_fails env (path_join (user_data_dir env) "trash")).
Qed.

Lemma upgrade_trash_frame env s s1 :
  upgrade_trash env s = Some s1 →
  dbs s1 = dbs s ∧ snapshot_files s1 = snapshot_files s.
Proof.
  unfold upgrade_trash, fs_create_directories.
  repeat (case_match; simplify_eq/=); by intros [= <-].
Qed.

(** X17.  [UpgradeUserDict] never loses a dictionary.  Whatever it
    returns, the store is still there as it was, or the snapshot file in
    the trash directory holds it as it was.  A store that is not older than
    0.9.7 is left alone, with the rest of the state; and no store other
    than this one, the one its snapshot names and the temporary one has
    changed. *)
Theorem UpgradeUserDict_keeps_the_dictionary (env : Env) (uenv : UpgradeEnv)
    (dict_name : string) (s : State) (db : UserDb) :
  dbs s !! dict_name = Some db →
  let r := UpgradeUserDict env uenv dict_name s in
  (dbs r.2 !! dict_name = Some db ∨
   snapshot_files r.2 !! upgrade_snapshot env uenv dict_name = Some (Some db)) ∧
  (¬ needs_upgrade uenv db → r.2 = s) ∧
  (∀ name, name ≠ temp_name → name ≠ dict_name → name ≠ GetDbName db →
           dbs r.2 !! name = dbs s !! name).
Proof.
  intros Hdb. cbv zeta.
  destruct (OpenReadOnly env s dict_name) as [db'|] eqn:Hopen;
    [|unfold UpgradeUserDict; rewrite Hopen; by auto].
  assert (db' = db) as ->.
  { unfold OpenReadOnly in Hopen. destruct (open_read_only_fails env dict_name); [done|].
    congruence. }
  destruct (IsUserDb db) eqn:Hud;
    [|unfold UpgradeUserDict; rewrite Hopen, Hud; by auto].
  destruct (decide (CompareVersionString uenv (GetRimeVersion uenv db) "0.9.7" < 0)%Z)
    as [Hold|Hnew].
  - rewrite (UpgradeUserDict_old env uenv dict_name s db Hopen Hud Hold).
    assert (∀ (A B : Prop) (s0 : State),
              A → B → A ∧ (¬ needs_upgrade uenv db → s0 = s) ∧ B) as Hsplit'.
    { intros A B s0 HA HB. split; [done|]. split; [|done]. by intros []. }
    destruct (upgrade_trash env s) as [s1|] eqn:Htrash; [|simpl; by auto].
    destruct (upgrade_trash_frame env s s1 Htrash) as [Hdbs Hfiles].
    destruct (backup_fails env _);
      [simpl; rewrite Hdbs; apply Hsplit'; by auto|]. cbv zeta.
    destruct (close_fails env dict_name);
      [simpl; rewrite Hdbs; apply Hsplit'; by auto|].
    destruct (remove_fails uenv dict_name);
      [simpl; rewrite Hdbs; apply Hsplit'; by auto|].
    set (s3 := set_dbs _ _).
    destruct (Restore_frame env (upgrade_snapshot env uenv dict_name) s3)
      as (_ & Hsnap & _).
    apply Hsplit'.
    + right. rewrite Hsnap. simpl. by rewrite lookup_insert_eq.
    + intros name Htemp Hname Hother.
      rewrite Restore_unfold.
      assert (import_to_temp env s3 (upgrade_snapshot env uenv dict_name) =
              if open_fails env temp_name then None else Some db) as ->.
      { unfold import_to_temp. simpl. by rewrite lookup_insert_eq. }
      assert (dbs (Restore_entry (upgrade_snapshot env uenv dict_name) s3) !! name =
              dbs s !! name) as Hentry.
      { simpl. by rewrite !lookup_delete_ne. }
      destruct (open_fails env temp_name); [done|]. rewrite Hud. simpl negb. cbv iota.
      case_decide; [done|].
      destruct (Open_dest env s3 (GetDbName db)); [|done].
      simpl. rewrite lookup_insert_ne by done. by rewrite !lookup_delete_ne.
  - unfold UpgradeUserDict. rewrite Hopen, Hud. simpl.
    unfold needs_upgrade in Hnew. apply Z.ltb_nlt in Hnew. rewrite Hnew. by auto.
Qed.

(** X18.  A failed upgrade can leave the installation without the
    dictionary.  Once the snapshot is written and the store is closed and
    removed, [UpgradeUserDict] returns false exactly when the temporary
    store does not open, the snapshot names no dictionary or names the
    temporary store, or the dictionary it names does not open for writing;
    and then the store is gone from the user data directory while the
    snapshot in the trash directory holds it. *)
Theorem UpgradeUserDict_failed_restore (env : Env) (uenv : UpgradeEnv)
    (dict_name : string) (s s1 : State) (db : UserDb) :
  OpenReadOnly env s dict_name = Some db → IsUserDb db = true →
  needs_upgrade uenv db →
  upgrade_trash env s = Some s1 →
  backup_fails env (upgrade_snapshot env uenv dict_name) = false →
  close_fails env dict_name = false → remove_fails uenv dict_name = false →
  let r := UpgradeUserDict env uenv dict_name s in
  (r.1 = false ↔
     open_fails env temp_name = true ∨ GetDbName db = EmptyString ∨
     GetDbName db = temp_name ∨ open_fails env (GetDbName db) = true) ∧
  (r.1 = false →
     dbs r.2 !! dict_name = None ∧
     snapshot_files r.2 !! upgrade_snapshot env uenv dict_name = Some (Some db)).
Proof.
  intros Hopen Hud Hold Htrash Hbackup Hclose Hremove. cbv zeta.
  rewrite (UpgradeUserDict_old env uenv dict_name s db Hopen Hud Hold).
  rewrite Htrash, Hbackup. cbv zeta. rewrite Hclose, Hremove.
  set (s3 := set_dbs _ _).
  destruct (Restore_frame env (upgrade_snapshot env uenv dict_name) s3)
    as (_ & Hsnap & _).
  assert ((Restore env (upgrade_snapshot env uenv dict_name) s3).1 = false →
          dbs (Restore env (upgrade_snapshot env uenv dict_name) s3).2 !! dict_name
          = None) as Hgone.
  { rewrite Restore_unfold.
    assert (dbs (Restore_entry (upgrade_snapshot env uenv dict_name) s3) !! dict_name
            = None) as Hentry.
    { simpl. destruct (decide (dict_name = temp_name)) as [->|Hne].
      - apply lookup_delete_eq.
      - rewrite lookup_delete_ne by done. apply lookup_delete_eq. }
    by repeat case_match. }
  split.
  - rewrite Restore_unfold.
    assert (import_to_temp env s3 (upgrade_snapshot env uenv dict_name) =
            if open_fails env temp_name then None else Some db) as ->.
    { unfold import_to_temp. simpl. by rewrite lookup_insert_eq. }
    destruct (open_fails env temp_name); [simpl; split; by auto|].
    rewrite Hud. simpl negb. cbv iota.
    case_decide as Hnamed; [simpl; split; by auto|].
    unfold Open_dest, Open. case_decide as Htemp; [simpl; split; by auto|].
    destruct (open_fails env (GetDbName db)); [simpl; split; by auto|]. simpl.
    split; [done|]. by intros [?|[?|[?|?]]].
  - intros Hfalse. split; [by apply Hgone|].
    rewrite Hsnap. simpl. by rewrite lookup_insert_eq.
Qed.

End UpgradeFacts.

Section UpgradeRepairs.
Context `{W : Weight} {C : Codec} {RT : CodecRoundTrip C}.

(** X19.  A successful upgrade repairs the dictionary.  For a store older
    than 0.9.7 whose metadata names it, in an installation where a store
    is created without records: when [UpgradeUserDict] returns true the
    store is there again, every key it holds is well formed and is the
    sanitized key of an entry the old store had and the new store took,
    every entry of the old store whose write the new store took is held
    with a count at least its own, and the snapshot in the trash directory
    holds the old store. *)
Theorem UpgradeUserDict_repairs_keys :
  ∀ (env : Env) (uenv : UpgradeEnv) (dict_name : string) (s s' : State) (db : UserDb),
    OpenReadOnly env s dict_name = Some db →
    needs_upgrade uenv db →
    GetDbName db = dict_name →
    records (fresh_db env dict_name) = ∅ →
    UpgradeUserDict env uenv dict_name s = (true, s') →
    ∃ db',
      dbs s' !! dict_name = Some db' ∧
      snapshot_files s' !! upgrade_snapshot env uenv dict_name = Some (Some db) ∧
      (∀ key, is_Some (records db' !! key) →
         well_formed_key key ∧
         ∃ k p, scanned db (k, p) ∧ sanitize_key k = Some key ∧
                update_fails env dict_name key = false) ∧
      (∀ k p key, scanned db (k, p) → sanitize_key k = Some key →
         update_fails env dict_name key = false →
         ∃ c', commits_at db' key = Some c' ∧ (commits (Unpack p) ≤ c')%Z).
Proof.
  intros env uenv dict_name s s' db Hopen Hold Hname Hfresh.
  destruct (IsUserDb db) eqn:Hud;
    [|unfold UpgradeUserDict; by rewrite Hopen, Hud].
  rewrite (UpgradeUserDict_old env uenv dict_name s db Hopen Hud Hold).
  destruct (upgrade_trash env s) as [s1|] eqn:Htrash; [|done].
  destruct (upgrade_trash_frame env s s1 Htrash) as [Hdbs Hfiles].
  destruct (backup_fails env _); [done|]. cbv zeta.
  destruct (close_fails env dict_name); [done|].
  destruct (remove_fails uenv dict_name); [done|].
  set (s3 := set_dbs _ _).
  intros (temp & dest & Himp & _ & _ & Hne & Hdest & ->)%Restore_true_inv.
  assert (temp = db) as ->.
  { unfold import_to_temp in Himp. simpl in Himp. rewrite lookup_insert_eq in Himp.
    by destruct (open_fails env temp_name); simplify_eq. }
  assert (dest = fresh_db env dict_name) as ->.
  { unfold Open_dest, Open in Hdest. rewrite decide_False in Hdest by done.
    rewrite Hname in Hdest. simpl in Hdest. rewrite lookup_delete_eq in Hdest.
    by destruct (open_fails env dict_name); simplify_eq/=. }
  rewrite Hname. eexists. split; [by simpl; rewrite lookup_insert_eq|].
  split; [by simpl; rewrite lookup_insert_eq|]. split.
  - intros key Hkey. rewrite Restore_merge_records, Hfresh in Hkey. split.
    + revert Hkey. apply fold_merge_records_well_formed.
      intros key' [? Hnone]. by rewrite lookup_empty in Hnone.
    + apply fold_merge_records_dom in Hkey as [[? Hnone]|Hmerged].
      * by rewrite lookup_empty in Hnone.
      * by apply merged_key_scanned in Hmerged.
  - intros k p key Hscan Hkey Hf.
    by apply (Restore_merge_commits_ge _ _ _ _ _ k p).
Qed.

End UpgradeRepairs.

(** * The further properties on the sample installation *)

(** X1 on the sample keys: "ab TAB cd" is sanitized to "ab SPACE TAB cd",
    which a second pass leaves. *)
Lemma sanitize_key_fixed_witness :
  well_formed_key (entry_key "ab" "cd") ∧
  sanitize_key (entry_key "ab" "cd") = Some (entry_key "ab" "cd").
Proof.
  apply (sanitize_key_fixed ("a" +:+ String "b" (String tab "cd"))). reflexivity.
Defined.

(** X2 on the sample: the entry "b y" of [luna_peer], stored without the
    space, is in "luna" after the merge under the sanitized key. *)
Lemma Restore_merge_takes_every_entry_witness :
  ∃ x, records (Restore_merge never_fails nothing_throws "local" luna_peer luna).1
         !! entry_key "b" "y" = Some (Pack x) ∧
       tick x = 7%N ∧ (1 ≤ commits x)%Z.
Proof.
  destruct (@Restore_merge_takes_every_entry ZWeight ZWeightOrder ZCodec ZRoundTrip
              never_fails nothing_throws "local" luna_peer luna) as [Htakes _].
  destruct (Htakes (String "b" (String tab "y")) (mk_value 1 1 7) (entry_key "b" "y"))
    as (x & Hx & Ht & Hc & _).
  - reflexivity.
  - reflexivity.
  - reflexivity.
  - reflexivity.
  - exists x. split; [exact Hx|]. split; [exact Ht|exact Hc].
Defined.

(** X3 on the sample: the count 2 of "a x" in "luna" is not lowered by the
    merge of [luna_peer]. *)
Lemma Restore_merge_never_lowers_a_count_witness :
  ∃ c', commits_at (Restore_merge never_fails nothing_throws "local" luna_peer luna).1
          (entry_key "a" "x") = Some c' ∧ (2 ≤ c')%Z.
Proof.
  destruct (@Restore_merge_never_lowers_a_count ZWeight ZCodec ZRoundTrip
              never_fails nothing_throws "local" luna_peer luna (entry_key "a" "x") 2)
    as (c' & Hc & Hle & _).
  - reflexivity.
  - exists c'. split; [exact Hc|exact Hle].
Defined.

(** X5 on the sample: [luna_peer] has two entries; a store that refuses
    the write under "b SPACE TAB y" counts one. *)
Lemma Restore_merge_counts_entries_witness :
  (Restore_merge refuses_b nothing_throws "local" luna_peer luna).2 = 1 ∧
  length (snapshot_entries luna_peer) = 2 ∧
  (Restore_merge never_fails nothing_throws "local" luna_peer luna).2 = 2.
Proof.
  destruct (Restore_merge_counts_entries refuses_b nothing_throws "local" luna_peer luna)
    as (Hcount & _).
  destruct (Restore_merge_counts_entries never_fails nothing_throws "local" luna_peer luna)
    as (_ & _ & _ & Hall).
  split; [|split].
  - rewrite Hcount. vm_compute. reflexivity.
  - vm_compute. reflexivity.
  - rewrite Hall; [vm_compute|]; reflexivity.
Defined.

Lemma luna_keys_well_formed key :
  is_Some (records luna !! key) → well_formed_key key.
Proof.
  intros [v Hv]. unfold luna, mk_db in Hv. simpl in Hv.
  apply lookup_insert_Some in Hv as [[<- _]|[_ Hv]]; [|by rewrite lookup_empty in Hv].
  exists 1. split; reflexivity.
Qed.

Lemma luna_keys_sanitized : keys_sanitized luna.
Proof.
  intros k key Hk%luna_keys_well_formed%sanitize_key_well_formed. congruence.
Qed.

(** X4 on the sample: after the merge of [luna_peer], which has a key
    without the space, the key "a x" that "luna" holds is well formed. *)
Lemma Restore_merge_keys_well_formed_witness :
  well_formed_key (entry_key "a" "x").
Proof.
  apply (Restore_merge_keys_well_formed never_fails nothing_throws "local" luna_peer luna
           luna_keys_well_formed).
  destruct (Restore_merge_stamps never_fails nothing_throws "local" luna_peer luna
              (entry_key "a" "x") merged_key_luna_peer) as (v & Hv & _).
  exists (Pack v). exact Hv.
Defined.

(** X7 on the sample: the key of the line "x TAB a TAB -1". *)
Lemma import_parse_key_well_formed_witness :
  well_formed_key (entry_key "a" "x") ∧
  sanitize_key (entry_key "a" "x") = Some (entry_key "a" "x").
Proof.
  apply (import_parse_key_well_formed (text_line "x" "a" "-1") (entry_key "a" "x") (-1)).
  reflexivity.
Defined.

(** X8 on the sample: of the four lines of the text file three stand for
    an entry, and a store that refuses the write under "b c SPACE TAB y"
    makes [Import] return 2. *)
Lemma Import_counts_parsed_lines_witness :
  (Import refusing_env "luna" import_file import_state).1 = 2%Z ∧
  (Import (sample_env false nothing_throws) "luna" import_file import_state).1 = 3%Z.
Proof.
  pose proof (Import_counts_parsed_lines refusing_env "luna" import_file import_state)
    as Hrefusing.
  pose proof (Import_counts_parsed_lines (sample_env false nothing_throws) "luna"
                import_file import_state) as Hsample.
  cbv zeta in Hrefusing, Hsample.
  destruct Hrefusing as (_ & Hcount & _). destruct Hsample as (_ & Hcount' & _).
  split.
  - destruct Hcount as (-> & _); [vm_compute; discriminate|]. vm_compute. reflexivity.
  - destruct Hcount' as (_ & _ & _ & ->); [vm_compute; discriminate|reflexivity|].
    vm_compute. reflexivity.
Defined.

(** X9 on the sample: the text file imported twice into "luna". *)
Lemma Import_twice_witness :
  let once := Import (sample_env false nothing_throws) "luna" import_file import_state in
  let twice := Import (sample_env false nothing_throws) "luna" import_file once.2 in
  twice.1 = once.1 ∧ twice.2 = once.2.
Proof.
  apply (@Import_twice ZWeight ZCodec ZRoundTrip).
Defined.


(** X11 on the sample: "luna" is owned by another identity.  Where no
    directory can be created, with the sync directory of this installation
    missing, [Backup] is left by the exception; where stores do not close,
    the store cannot be exported and no snapshot file is written. *)
Lemma Backup_fails_cleanly_witness :
  (Backup (sample_env true nothing_throws) "luna" bare_state).1 = Throws ∧
  backup_source unclosing_env bare_state "luna" = None ∧
  snapshot_files (Backup unclosing_env "luna" bare_state).2 = snapshot_files bare_state.
Proof.
  split; [|split].
  - destruct (Backup_fails_cleanly (sample_env true nothing_throws) "luna" bare_state)
      as (_ & Hthrows & _).
    apply Hthrows. split; [|split].
    + exists (mk_db "luna" "local" 5 [(entry_key "a" "x", mk_value 2 10 3)]).
      reflexivity.
    + reflexivity.
    + reflexivity.
  - reflexivity.
  - destruct (Backup_fails_cleanly unclosing_env "luna" bare_state)
      as (Htrue & _ & _ & Hclean & _).
    apply Hclean. intros [[db Hsrc] _]%Htrue. discriminate Hsrc.
Defined.

(** X12 on the sample: "luna" synchronized with one peer. *)
Lemma Synchronize_publishes_local_store_witness :
  let env := sample_env false nothing_throws in
  let s' := (Synchronize env "luna" (state_with luna_peer)).2 in
  ∃ db, dbs s' !! "luna" = Some db ∧
        snapshot_files s' !! own_snapshot env "luna" = Some (Some db) ∧
        GetUserId db = "local".
Proof.
  cbv zeta.
  apply (Synchronize_publishes_local_store (sample_env false nothing_throws) "luna"
           (state_with luna_peer)).
  apply returned_outcome. vm_compute. reflexivity.
Defined.


(** X14 on the sample: "luna" published and merged back. *)
Lemma Backup_then_Restore_keeps_counts_witness :
  let env := sample_env false nothing_throws in
  let s1 := (Backup env "luna" (state_with luna_peer)).2 in
  ∃ db2, dbs (Restore env (own_snapshot env "luna") s1).2 !! "luna" = Some db2 ∧
         ∀ key, commits_at db2 key = commits_at luna key.
Proof.
  cbv zeta.
  apply (@Backup_then_Restore_keeps_counts ZWeight ZCodec ZRoundTrip
           (sample_env false nothing_throws) "luna" (state_with luna_peer)).
  - discriminate.
  - reflexivity.
  - reflexivity.
  - exact luna_keys_sanitized.
  - apply returned_outcome. vm_compute. reflexivity.
Defined.

(** X15 on the sample: the one dictionary of the sample is published. *)
Lemma SynchronizeAll_publishes_every_store_witness :
  let env := sample_env false nothing_throws in
  published env (SynchronizeAll env (state_with luna_peer)).2 (own_snapshot env "luna").
Proof.
  cbv zeta.
  apply (SynchronizeAll_publishes_every_store (sample_env false nothing_throws)
           (state_with luna_peer)).
  - apply returned_outcome. vm_compute. reflexivity.
  - vm_compute. apply list_elem_of_here.
Defined.

(** X17 on the sample: the upgrade of "luna" as the defective writer left
    it. *)
Lemma UpgradeUserDict_keeps_the_dictionary_witness :
  let r := UpgradeUserDict (sample_env false nothing_throws) sample_upgrade_env
             "luna" old_state in
  dbs r.2 !! "luna" = Some luna_old ∨
  snapshot_files r.2
    !! upgrade_snapshot (sample_env false nothing_throws) sample_upgrade_env "luna"
  = Some (Some luna_old).
Proof.
  cbv zeta.
  apply (UpgradeUserDict_keeps_the_dictionary (sample_env false nothing_throws)
           sample_upgrade_env "luna" old_state luna_old).
  reflexivity.
Defined.

(** X18 on the sample: with "luna" locked, the upgrade removes the store
    and fails to bring it back. *)
Lemma UpgradeUserDict_failed_restore_witness :
  let r := UpgradeUserDict locked_env sample_upgrade_env "luna" old_state in
  r.1 = false ∧ dbs r.2 !! "luna" = None ∧
  snapshot_files r.2 !! upgrade_snapshot locked_env sample_upgrade_env "luna"
  = Some (Some luna_old).
Proof.
  cbv zeta.
  destruct (UpgradeUserDict_failed_restore locked_env sample_upgrade_env "luna" old_state
              (fs_create_directories locked_env "/data/trash" old_state).2 luna_old)
    as [Hfalse Hgone].
  - reflexivity.
  - reflexivity.
  - reflexivity.
  - reflexivity.
  - reflexivity.
  - reflexivity.
  - reflexivity.
  - assert ((UpgradeUserDict locked_env sample_upgrade_env "luna" old_state).1 = false)
      as Hr.
    { apply Hfalse. right. right. right. reflexivity. }
    split; [exact Hr|]. exact (Hgone Hr).
Defined.

(** X19 on the sample: the upgrade of "luna" as the defective writer left
    it goes through and repairs its key. *)
Lemma UpgradeUserDict_repairs_keys_witness :
  let env := sample_env false nothing_throws in
  let s' := (UpgradeUserDict env sample_upgrade_env "luna" old_state).2 in
  ∃ db',
    dbs s' !! "luna" = Some db' ∧
    snapshot_files s' !! upgrade_snapshot env sample_upgrade_env "luna"
      = Some (Some luna_old) ∧
    (∀ key, is_Some (records db' !! key) →
       well_formed_key key ∧
       ∃ k p, scanned luna_old (k, p) ∧ sanitize_key k = Some key ∧
              update_fails env "luna" key = false) ∧
    (∀ k p key, scanned luna_old (k, p) → sanitize_key k = Some key →
       update_fails env "luna" key = false →
       ∃ c', commits_at db' key = Some c' ∧ (commits (Unpack p) ≤ c')%Z).
Proof.
  cbv zeta.
  apply (@UpgradeUserDict_repairs_keys ZWeight ZCodec ZRoundTrip
           (sample_env false nothing_throws) sample_upgrade_env "luna" old_state).
  - reflexivity.
  - reflexivity.
  - reflexivity.
  - reflexivity.
  - apply returned_true. vm_compute. reflexivity.
Defined.
